(** * go-solana-tx-explorer: the transaction-enrichment pipeline

    A shallow embedding of [FetchAccountTransactions] (transactions.go),
    of the configuration helpers [GetRPCURL], [GetWalletAddress],
    [GetWSURL] and [GetAccountFromPublicKey] (utils.go) and of the start
    of [main], followed by the properties of the pipeline; then of the
    code around it: the polling listener [ListenWalletTransactions], the
    token registry ([loadJupiterList], [loadSolanaLabsList],
    [LoadDefaultRegistry]), the holdings that [PrintUserTokens] collects,
    and the rows that [formatProgramLogs] and [formatInstructions] build.

    Conventions.
    - A Go function body either returns, panics, or leaves the process
      through [log.Fatal]; this is the [outcome] monad below.
    - A Go [error] is modelled by its message (the string that [Error()]
      returns); a nil error is [None].
    - Go's returns of a pointer and an error are pairs of options, so that
      a nil pointer next to a non-nil error can be told apart from the
      other three combinations.
    - The solana-go library is not part of the repository: its types and
      calls are the fields of the class [SolanaGo] and of the record
      [rpc_Client].  Its RPC calls return either a value or an error,
      which is the library's contract, and a call is a function of its
      arguments: one run observes one answer per request.  The listener,
      which repeats one request, takes the answers call by call.
    - The entries of a listing are pointers.  [rpc_Client] gives them as
      records, for listings without a nil entry; [rpc_RawClient] gives
      them as pointers, and [FetchAccountTransactions_raw] and [main_raw]
      are the two functions on such a listing.  They agree with
      [FetchAccountTransactions] and [main] when no entry that is read is
      nil.  The listener is modelled on listings without a nil entry.
    - [net/http], [encoding/json] and go-pretty are not part of the
      repository either: an HTTP exchange is given by its outcome, a
      decoder is a parameter, and a table is the list of its rows.
    - [limit] is a Go [int], here an integer of [Z]; lengths and indices
      are natural numbers.  No arithmetic of the pipeline can overflow.
    - [log.Printf] and [fmt.Printf] only write to the console and are left
      out of the pipeline: no returned value depends on them.  The log of
      the listener is its output and is kept.
    - Not modelled: [AnalyzeTransactions], [FormatTransactionSummary] and
      the balance tables, whose output goes through floating-point and
      time formatting, and the sort of the holdings by parsed amount. *)

From Stdlib Require Import ZArith NArith String Ascii Sorting.Sorted.
From stdpp Require Import base option list gmap strings fin_maps sorting.
From stdpp Require Import pretty relations.

Local Open Scope string_scope.
Local Open Scope nat_scope.
Local Open Scope list_scope.

(** ** Go runtime *)

Inductive outcome (A : Type) : Type :=
| Returned (a : A)
| Panicked (msg : string)
| Exited (msg : string).
Arguments Returned {A} a.
Arguments Panicked {A} msg.
Arguments Exited {A} msg.

#[global] Instance outcome_ret : MRet outcome := fun A a => Returned a.
#[global] Instance outcome_bind : MBind outcome := fun A B k c =>
  match c with
  | Returned a => k a
  | Panicked msg => Panicked msg
  | Exited msg => Exited msg
  end.

Definition error : Type := string.

(** A slice is nil or holds elements; [make] gives a non-nil slice, and
    [append] to any slice gives a non-nil one. *)
Inductive slice (A : Type) : Type :=
| SliceNil
| SliceOf (elems : list A).
Arguments SliceNil {A}.
Arguments SliceOf {A} elems.

Definition elems {A} (s : slice A) : list A :=
  match s with SliceNil => [] | SliceOf l => l end.

Definition len {A} (s : slice A) : nat := length (elems s).

Definition make {A} (n cap : nat) (zero : A) : slice A := SliceOf (replicate n zero).

Definition append {A} (s : slice A) (x : A) : slice A := SliceOf (elems s ++ [x]).

(** [s[i]]: a run-time panic when [i] is out of range. *)
Definition at_index {A} (s : list A) (i : nat) : outcome A :=
  match s !! i with
  | Some x => Returned x
  | None => Panicked "index out of range"
  end.

(** [p.f] on a pointer [p]: a run-time panic when [p] is nil. *)
Definition deref {A} (p : option A) : outcome A :=
  match p with
  | Some x => Returned x
  | None => Panicked "invalid memory address or nil pointer dereference"
  end.

(** The process environment after [godotenv.Load]; [os.Getenv] gives the
    empty string for a variable that is not set. *)
Definition environ : Type := gmap string string.

Definition Getenv (env : environ) (key : string) : string :=
  default "" (env !! key).

(** ** utils.go: configuration *)

Definition GetRPCURL (env : environ) : outcome string :=
  let rpcURL := Getenv env "RPC_URL" in
  if decide (rpcURL = "") then Exited "RPC_URL environment variable is required"
  else Returned rpcURL.

Definition GetWalletAddress (env : environ) : outcome string :=
  let walletAddr := Getenv env "WALLET_ADDRESS" in
  if decide (walletAddr = "") then Exited "WALLET_ADDRESS environment variable is required"
  else Returned walletAddr.

(** [s[:n]] and [s[n:]] on strings are byte slices; they are only used
    under the guard [len(s) >= n]. *)
Definition str_take (n : nat) (s : string) : string := substring 0 n s.
Definition str_drop (n : nat) (s : string) : string := substring n (String.length s - n) s.

Definition GetWSURL (env : environ) : outcome string :=
  let wsURL := Getenv env "WS_URL" in
  if negb (bool_decide (wsURL = "")) then Returned wsURL else
  let httpURL := Getenv env "RPC_URL" in
  if decide (httpURL = "") then Exited "WS_URL or RPC_URL environment variable is required" else
  if bool_decide (8 ≤ String.length httpURL)%nat && bool_decide (str_take 8 httpURL = "https://")
  then Returned ("wss://" +:+ str_drop 8 httpURL) else
  if bool_decide (7 ≤ String.length httpURL)%nat && bool_decide (str_take 7 httpURL = "http://")
  then Returned ("ws://" +:+ str_drop 7 httpURL) else
  if bool_decide (6 ≤ String.length httpURL)%nat && bool_decide (str_take 6 httpURL = "wss://")
  then Returned httpURL else
  if bool_decide (5 ≤ String.length httpURL)%nat && bool_decide (str_take 5 httpURL = "ws://")
  then Returned httpURL else
  Returned httpURL.

(** ** The solana-go library, as far as the pipeline uses it *)

(** [solana.PublicKey] with its zero value, its base58 rendering and its
    parser; [solana.Signature] with its base58 rendering;
    [rpc.TransactionMeta], [solana.Transaction] and the envelope that
    carries the encoded transaction, whose [GetTransaction] returns a
    pointer and an error. *)
Class SolanaGo : Type := {
  solana_PublicKey : Type;
  PublicKey_zero : solana_PublicKey;
  PublicKey_String : solana_PublicKey → string;
  PublicKeyFromBase58 : string → solana_PublicKey + error;
  solana_Signature : Type;
  Signature_String : solana_Signature → string;
  rpc_TransactionMeta : Type;
  solana_Transaction : Type;
  rpc_TransactionResultEnvelope : Type;
  Envelope_GetTransaction :
    rpc_TransactionResultEnvelope → option solana_Transaction * option error
}.

Section Pipeline.

Context `{SolanaGo}.

(** [rpc.TransactionSignature]: one entry of the address history. *)
Record rpc_TransactionSignature : Type := {
  sig_Signature : solana_Signature;
  sig_Slot : N;
  sig_BlockTime : option Z
}.

(** [rpc.GetTransactionResult], the two fields the pipeline reads. *)
Record rpc_GetTransactionResult : Type := {
  res_Meta : option rpc_TransactionMeta;
  res_Transaction : option rpc_TransactionResultEnvelope
}.

(** [rpc.Client], the two calls the pipeline makes.  The context and the
    request options (base64 encoding, confirmed commitment, maximum
    supported version 0) are the same in every call. *)
Record rpc_Client : Type := {
  GetSignaturesForAddress : solana_PublicKey → list rpc_TransactionSignature + error;
  GetTransaction : solana_Signature → rpc_GetTransactionResult + error
}.

(** ** The records of the pipeline *)

Record TransactionInfo : Type := {
  Signature : string;
  Slot : N;
  BlockTime : option Z;
  Meta : option rpc_TransactionMeta;
  Transaction : option solana_Transaction
}.

Record AccountTransactions : Type := {
  Account : solana_PublicKey;
  Transactions : slice TransactionInfo;
  LastFetched : Z
}.

Definition TransactionInfo_zero : TransactionInfo :=
  {| Signature := ""; Slot := 0%N; BlockTime := None; Meta := None; Transaction := None |}.

(** ** transactions.go *)

Record TransactionService : Type := { client : rpc_Client }.

Definition NewTransactionService (c : rpc_Client) : TransactionService :=
  {| client := c |}.

Record transactionResult : Type := {
  info : TransactionInfo;
  index : nat;
  err : option error
}.

Definition processCount (signatures : list rpc_TransactionSignature) (limit : Z) : nat :=
  let processCount := length signatures in
  if bool_decide (0 < limit)%Z && bool_decide (limit < Z.of_nat processCount)%Z
  then Z.to_nat limit
  else processCount.

(** The body of one goroutine: what it sends on [resultChan]. *)
Definition fetchTask (t : TransactionService) (index : nat)
    (sig : rpc_TransactionSignature) : transactionResult :=
  match GetTransaction (client t) (sig_Signature sig) with
  | inr err => {| info := TransactionInfo_zero; index := index; err := Some err |}
  | inl txResult =>
      let blockTime :=
        match sig_BlockTime sig with
        | Some timestamp => Some timestamp
        | None => None
        end in
      let txInfo :=
        {| Signature := Signature_String (sig_Signature sig);
           Slot := sig_Slot sig;
           BlockTime := blockTime;
           Meta := res_Meta txResult;
           Transaction := None |} in
      let txInfo :=
        match res_Transaction txResult with
        | Some envelope =>
            match Envelope_GetTransaction envelope with
            | (_, Some _) => txInfo
            | (parsedTx, None) =>
                {| Signature := Signature txInfo; Slot := Slot txInfo;
                   BlockTime := BlockTime txInfo; Meta := Meta txInfo;
                   Transaction := parsedTx |}
            end
        | None => txInfo
        end in
      {| info := txInfo; index := index; err := None |}
  end.

(** The launch loop [for i := 0; i < processCount; i++]: the goroutines
    started, each with its arguments [(i, signatures[i])], which Go
    evaluates in the loop.  [n] counts the iterations left. *)
Fixpoint launch (signatures : list rpc_TransactionSignature) (i n : nat)
    : outcome (list (nat * rpc_TransactionSignature)) :=
  match n with
  | 0 => Returned []
  | S n' =>
      sig ← at_index signatures i;
      rest ← launch signatures (S i) n';
      Returned ((i, sig) :: rest)
  end.

(** The goroutines in the order in which they send: [order] lists
    positions in the launch sequence. *)
Definition completed {A} (tasks : list A) (order : list nat) : list A :=
  omap (fun k => tasks !! k) order.

(** One iteration of [for result := range resultChan]. *)
Definition receive (resultMap : gmap nat TransactionInfo) (result : transactionResult)
    : gmap nat TransactionInfo :=
  match err result with
  | None => <[index result := info result]> resultMap
  | Some _ => resultMap
  end.

Definition collect (resultChan : list transactionResult) : gmap nat TransactionInfo :=
  foldl receive ∅ resultChan.

(** The assembly loop [for i := 0; i < processCount; i++]; [n] counts
    the iterations left. *)
Fixpoint assemble (resultMap : gmap nat TransactionInfo) (i n : nat)
    (results : slice TransactionInfo) : slice TransactionInfo :=
  match n with
  | 0 => results
  | S n' =>
      assemble resultMap (S i) n'
        match resultMap !! i with
        | Some txInfo => append results txInfo
        | None => results
        end
  end.

(** [now] is the reading of [time.Now()]; [order] is the order in which
    the goroutines complete, the only thing the scheduler decides.  The
    channel has room for every result, so no send blocks, and the
    receiving loop sees the results in the order they were sent. *)
Definition FetchAccountTransactions (t : TransactionService)
    (account : solana_PublicKey) (limit : Z) (now : Z) (order : list nat)
    : outcome (option AccountTransactions * option error) :=
  match GetSignaturesForAddress (client t) account with
  | inr err =>
      Returned (None,
        Some ("failed to get signatures for account " +:+ PublicKey_String account
              +:+ ": " +:+ err))
  | inl signatures =>
      let processCount := processCount signatures limit in
      tasks ← launch signatures 0 processCount;
      let resultChan :=
        (fun task => fetchTask t (fst task) (snd task)) <$> completed tasks order in
      let results := make 0 processCount TransactionInfo_zero in
      let resultMap := collect resultChan in
      let results := assemble resultMap 0 processCount results in
      let transactions := results in
      Returned (Some {| Account := account; Transactions := transactions;
                        LastFetched := now |}, None)
  end.

(** ** [GetAccountFromPublicKey] and [main] *)

Definition GetAccountFromPublicKey (pubKey : string) : solana_PublicKey * option error :=
  match PublicKeyFromBase58 pubKey with
  | inr _ => (PublicKey_zero, Some "cannot get account from public key")
  | inl account => (account, None)
  end.

(** What [main] does with the batch. *)
Inductive report : Type :=
| Analyze (accountTxs : AccountTransactions)
| NoRecentTransactions.

(** [main] up to the choice between the analysis and the "no recent
    transactions" message.  [rpc_New] is the library's client
    constructor, [TRANSACTIONS_LIMIT] the constant of the repository
    (its declaration is not among the sources; the README gives its
    default).  An invalid address and a failed fetch are only logged. *)
Definition main (rpc_New : string → rpc_Client) (TRANSACTIONS_LIMIT : Z)
    (env : environ) (now : Z) (order : list nat) : outcome report :=
  rpcURL ← GetRPCURL env;
  let client := rpc_New rpcURL in
  let transactionService := NewTransactionService client in
  accountsToMonitor ← GetWalletAddress env;
  let '(account, _) := GetAccountFromPublicKey accountsToMonitor in
  fetched ← FetchAccountTransactions transactionService account TRANSACTIONS_LIMIT now order;
  let '(accountTxs, _) := fetched in
  batch ← deref accountTxs;
  if bool_decide (0 < len (Transactions batch))%nat
  then Returned (Analyze batch)
  else Returned NoRecentTransactions.

(** ** Notions the properties are stated with *)

(** The record that the task of index [i] contributes: the [info] it
    sends, when it reports no error. *)
Definition record (t : TransactionService) (signatures : list rpc_TransactionSignature)
    (i : nat) : option TransactionInfo :=
  sig ← signatures !! i;
  let result := fetchTask t i sig in
  match err result with
  | None => Some (info result)
  | Some _ => None
  end.

(** The batch without its fetch timestamp. *)
Definition without_timestamp (o : outcome (option AccountTransactions * option error))
    : outcome (option (solana_PublicKey * slice TransactionInfo) * option error) :=
  match o with
  | Returned (Some batch, e) => Returned (Some (Account batch, Transactions batch), e)
  | Returned (None, e) => Returned (None, e)
  | Panicked msg => Panicked msg
  | Exited msg => Exited msg
  end.

(** [order] is a completion order of the run: it names each launched
    goroutine once.  A run whose listing fails launches none, and every
    order is one of its completion orders. *)
Definition completion_order (t : TransactionService) (account : solana_PublicKey)
    (limit : Z) (order : list nat) : Prop :=
  ∀ signatures,
    GetSignaturesForAddress (client t) account = inl signatures →
    order ≡ₚ seq 0 (processCount signatures limit).

(** ** The goroutines, step by step

    The state of the fan-out after the launch loop: the goroutines that
    have not sent yet, the buffered channel, and the map the receiving
    loop fills.  Any running goroutine may be the next to send; the
    receiving loop takes the oldest result of the channel.  When no
    goroutine is left, [wg.Wait] returns, the channel is closed, and the
    loop ends once the channel is empty. *)
Record pool : Type := {
  running : list (nat * rpc_TransactionSignature);
  resultChan : list transactionResult;
  resultMap : gmap nat TransactionInfo
}.

Inductive step (t : TransactionService) : pool → pool → Prop :=
| step_send before task after chan m :
    step t {| running := before ++ task :: after; resultChan := chan; resultMap := m |}
           {| running := before ++ after;
              resultChan := chan ++ [fetchTask t (fst task) (snd task)];
              resultMap := m |}
| step_receive tasks result chan m :
    step t {| running := tasks; resultChan := result :: chan; resultMap := m |}
           {| running := tasks; resultChan := chan; resultMap := receive m result |}.

Definition launched (tasks : list (nat * rpc_TransactionSignature)) : pool :=
  {| running := tasks; resultChan := []; resultMap := ∅ |}.

Definition joined (p : pool) : Prop := running p = [] ∧ resultChan p = [].

End Pipeline.

(** ** The listing as a slice of pointers

    [GetSignaturesForAddress] returns a slice of pointers to entries, and
    the launch loop hands [signatures[i]] to its goroutine as it is.  The
    definitions above read an entry as a record, which is what the
    pointer gives as long as it is not nil.  Here an entry is a pointer
    that may be nil (a JSON null in the answer).  No code of the
    repository tests an entry against nil: the goroutine reads
    [sig.Signature] through the pointer before anything else, and a
    run-time panic in a goroutine ends the process, whatever the other
    goroutines and the receiving loop have done. *)
Section Pointers.

Context `{SolanaGo}.

(** [rpc.Client] with the listing as the library types it.  A
    transaction comes with a nil error only when it is not nil, which the
    library checks itself. *)
Record rpc_RawClient : Type := {
  Raw_GetSignaturesForAddress :
    solana_PublicKey → list (option rpc_TransactionSignature) + error;
  Raw_GetTransaction : solana_Signature → rpc_GetTransactionResult + error
}.

(** The entries of a listing that are not nil, in their order. *)
Definition non_nil (signatures : list (option rpc_TransactionSignature))
    : list rpc_TransactionSignature :=
  omap id signatures.

(** The client read through its non-nil entries: the client of the
    definitions above. *)
Definition checked (c : rpc_RawClient) : rpc_Client :=
  {| GetSignaturesForAddress := fun account =>
       match Raw_GetSignaturesForAddress c account with
       | inl signatures => inl (non_nil signatures)
       | inr err => inr err
       end;
     GetTransaction := Raw_GetTransaction c |}.

Definition processCount_raw (signatures : list (option rpc_TransactionSignature))
    (limit : Z) : nat :=
  let processCount := length signatures in
  if bool_decide (0 < limit)%Z && bool_decide (limit < Z.of_nat processCount)%Z
  then Z.to_nat limit
  else processCount.

(** The launch loop: the argument [signatures[i]] is copied as a pointer,
    nil or not. *)
Fixpoint launch_raw (signatures : list (option rpc_TransactionSignature)) (i n : nat)
    : outcome (list (nat * option rpc_TransactionSignature)) :=
  match n with
  | 0 => Returned []
  | S n' =>
      sig ← at_index signatures i;
      rest ← launch_raw signatures (S i) n';
      Returned ((i, sig) :: rest)
  end.

(** The goroutine [go func(index int, sig *rpc.TransactionSignature)]:
    its first use of [sig] is [sig.Signature], the argument of
    [GetTransaction]; from there on it is [fetchTask]. *)
Definition goroutine (t : TransactionService) (index : nat)
    (sig : option rpc_TransactionSignature) : outcome transactionResult :=
  sig ← deref sig;
  Returned (fetchTask t index sig).

(** The goroutines in their order of completion, with what they send;
    the first panic is the end of the process. *)
Fixpoint run_goroutines (t : TransactionService)
    (tasks : list (nat * option rpc_TransactionSignature))
    : outcome (list transactionResult) :=
  match tasks with
  | [] => Returned []
  | task :: tasks =>
      result ← goroutine t (fst task) (snd task);
      results ← run_goroutines t tasks;
      Returned (result :: results)
  end.

(** [FetchAccountTransactions] on a service whose client is [c]: the body
    of the function with [signatures] as a slice of pointers.  The
    goroutines use the service [t] for its [GetTransaction] only. *)
Definition FetchAccountTransactions_raw (c : rpc_RawClient)
    (account : solana_PublicKey) (limit : Z) (now : Z) (order : list nat)
    : outcome (option AccountTransactions * option error) :=
  let t := NewTransactionService (checked c) in
  match Raw_GetSignaturesForAddress c account with
  | inr err =>
      Returned (None,
        Some ("failed to get signatures for account " +:+ PublicKey_String account
              +:+ ": " +:+ err))
  | inl signatures =>
      let processCount := processCount_raw signatures limit in
      tasks ← launch_raw signatures 0 processCount;
      resultChan ← run_goroutines t (completed tasks order);
      let results := make 0 processCount TransactionInfo_zero in
      let resultMap := collect resultChan in
      let results := assemble resultMap 0 processCount results in
      let transactions := results in
      Returned (Some {| Account := account; Transactions := transactions;
                        LastFetched := now |}, None)
  end.

(** The record that the task of index [i] contributes: the [info] it
    sends, when its entry is not nil and it reports no error. *)
Definition record_raw (c : rpc_RawClient)
    (signatures : list (option rpc_TransactionSignature)) (i : nat)
    : option TransactionInfo :=
  match signatures !! i with
  | Some (Some sig) =>
      let result := fetchTask (NewTransactionService (checked c)) i sig in
      match err result with
      | None => Some (info result)
      | Some _ => None
      end
  | _ => None
  end.

(** [main] on the client that [rpc_New] gives. *)
Definition main_raw (rpc_New : string → rpc_RawClient) (TRANSACTIONS_LIMIT : Z)
    (env : environ) (now : Z) (order : list nat) : outcome report :=
  rpcURL ← GetRPCURL env;
  let client := rpc_New rpcURL in
  accountsToMonitor ← GetWalletAddress env;
  let '(account, _) := GetAccountFromPublicKey accountsToMonitor in
  fetched ← FetchAccountTransactions_raw client account TRANSACTIONS_LIMIT now order;
  let '(accountTxs, _) := fetched in
  batch ← deref accountTxs;
  if bool_decide (0 < len (Transactions batch))%nat
  then Returned (Analyze batch)
  else Returned NoRecentTransactions.

End Pointers.

Definition str_contains (s sub : string) : Prop :=
  ∃ before after, s = before +:+ sub +:+ after.

(** ** A small instance of the library, to run the pipeline on

    Keys and signatures are their base58 strings, the meta block is the
    fee, and an envelope decodes unless it is empty. *)
Definition demo : SolanaGo := {|
  solana_PublicKey := string;
  PublicKey_zero := "11111111111111111111111111111111";
  PublicKey_String := fun key => key;
  PublicKeyFromBase58 := fun s =>
    if decide (s = "") then inr "zero length string" else inl s;
  solana_Signature := string;
  Signature_String := fun sig => sig;
  rpc_TransactionMeta := N;
  solana_Transaction := string;
  rpc_TransactionResultEnvelope := string;
  Envelope_GetTransaction := fun payload =>
    if decide (payload = "") then (None, Some "unexpected EOF") else (Some payload, None)
|}.

Definition demo_history : list (@rpc_TransactionSignature demo) :=
  [ @Build_rpc_TransactionSignature demo "S0" 300%N (Some 1700000300%Z);
    @Build_rpc_TransactionSignature demo "S1" 200%N None;
    @Build_rpc_TransactionSignature demo "S2" 100%N (Some 1700000100%Z);
    @Build_rpc_TransactionSignature demo "S3" 90%N (Some 1700000090%Z);
    @Build_rpc_TransactionSignature demo "S4" 80%N None ].

(** The wallet "wallet" has five transactions, the wallet "trio" the
    first three of them; the fetch of "S1" fails, the payload of "S3" does
    not decode; the wallet "empty" has no history; any other address fails
    to list. *)
Definition demo_client : @rpc_Client demo :=
  @Build_rpc_Client demo
    (fun account : string =>
       if decide (account = "wallet") then inl demo_history
       else if decide (account = "trio") then inl (take 3 demo_history)
       else if decide (account = "empty") then inl []
       else inr "rpc: connection refused")
    (fun sig : string =>
       if decide (sig = "S1") then inr "not found"
       else if decide (sig = "S3")
       then inl (@Build_rpc_GetTransactionResult demo (Some 5000%N) (Some ""))
       else inl (@Build_rpc_GetTransactionResult demo (Some 5000%N) (Some ("tx:" +:+ sig)))).

Definition demo_service : @TransactionService demo := NewTransactionService demo_client.

Definition demo_env : environ :=
  <["RPC_URL" := "https://rpc.example"]> (<["WALLET_ADDRESS" := "offline"]> ∅).

(** ** The fan-out with the capacity of the channel

    [resultChan] is made with room for [processCount] results.  A send
    on a full channel blocks: a goroutine can send only while the channel
    holds fewer results than its capacity. *)
Section FanOut.

Context `{SolanaGo}.

Inductive step_buffered (t : TransactionService) (capacity : nat) : pool → pool → Prop :=
| buffered_send before task after chan m :
    length chan < capacity →
    step_buffered t capacity
      {| running := before ++ task :: after; resultChan := chan; resultMap := m |}
      {| running := before ++ after;
         resultChan := chan ++ [fetchTask t (fst task) (snd task)];
         resultMap := m |}
| buffered_receive tasks result chan m :
    step_buffered t capacity
      {| running := tasks; resultChan := result :: chan; resultMap := m |}
      {| running := tasks; resultChan := chan; resultMap := receive m result |}.

(** The work left: a running goroutine still has to send and its result
    to be received; a buffered result still has to be received. *)
Definition work_left (p : pool) : nat := 2 * length (running p) + length (resultChan p).

End FanOut.

(** A second client for the demo instance: the listing answers, every
    fetch fails. *)
Definition demo_unreachable_client : @rpc_Client demo :=
  @Build_rpc_Client demo
    (fun account : string => inl demo_history)
    (fun sig : string => inr "context deadline exceeded").

Definition demo_unreachable_service : @TransactionService demo :=
  NewTransactionService demo_unreachable_client.

(** A library in which no address parses. *)
Definition demo_strict : SolanaGo := {|
  solana_PublicKey := string;
  PublicKey_zero := "11111111111111111111111111111111";
  PublicKey_String := fun key => key;
  PublicKeyFromBase58 := fun s => inr "invalid base58 digit";
  solana_Signature := string;
  Signature_String := fun sig => sig;
  rpc_TransactionMeta := N;
  solana_Transaction := string;
  rpc_TransactionResultEnvelope := string;
  Envelope_GetTransaction := fun payload => (Some payload, None)
|}.

Definition demo_strict_client : @rpc_Client demo_strict :=
  @Build_rpc_Client demo_strict
    (fun account : string =>
       if decide (account = "11111111111111111111111111111111")
       then inl [@Build_rpc_TransactionSignature demo_strict "Z0" 7%N None]
       else inr "rpc: connection refused")
    (fun sig : string =>
       inl (@Build_rpc_GetTransactionResult demo_strict (Some 5000%N) (Some sig))).

(** ** ws_listener.go: the polling listener *)

(** [strings.HasPrefix] and [strings.TrimPrefix]. *)
Definition HasPrefix (s prefix : string) : bool :=
  bool_decide (String.length prefix ≤ String.length s)
  && bool_decide (str_take (String.length prefix) s = prefix).

Definition TrimPrefix (s prefix : string) : string :=
  if HasPrefix s prefix then str_drop (String.length prefix) s else s.

(** The endpoint that [ListenWalletTransactions] polls: the first lines
    of the function, which turn the WebSocket address back into an HTTP
    one. *)
Definition ListenWalletTransactions_httpURL (wsURL : string) : string :=
  let httpURL := wsURL in
  if HasPrefix httpURL "wss://" then "https://" +:+ TrimPrefix httpURL "wss://"
  else if HasPrefix httpURL "ws://" then "http://" +:+ TrimPrefix httpURL "ws://"
  else httpURL.

(** The case that a [select] of the polling loop takes: the ticker, or
    the end of the context with its error. *)
Inductive select_case : Type :=
| Tick
| Done (ctxErr : error).

(** What the listener logs. *)
Inductive log_line : Type :=
| Listening (wallet : string)
| PollError (e : error)
| TxObserved (sigStr : string) (slot : N).

Record listener : Type := {
  seen : gset string;
  logged : list log_line
}.

(** The signatures that the log reports as new. *)
Definition observed (log : list log_line) : list string :=
  omap (fun line => match line with TxObserved sigStr _ => Some sigStr | _ => None end) log.

(** The number of polls of the loop: the ticks before the context ends. *)
Fixpoint ticks (cases : list select_case) : nat :=
  match cases with
  | Tick :: cases => S (ticks cases)
  | _ => 0
  end.

(** [st'] comes after [st]: the log has grown by lines that report, once
    each, signatures that [st] had not seen, and the set has grown by
    exactly these signatures. *)
Definition follows (st st' : listener) : Prop :=
  ∃ new,
    logged st' = logged st ++ new
    ∧ NoDup (observed new)
    ∧ (∀ x, x ∈ observed new → x ∉ seen st)
    ∧ seen st' = seen st ∪ list_to_set (observed new).

Section Listener.

Context `{SolanaGo}.

(** The seeding loop [for _, s := range sigs]. *)
Definition seed (seen : gset string) (sigs : list rpc_TransactionSignature) : gset string :=
  foldl (fun seen s => {[Signature_String (sig_Signature s)]} ∪ seen) seen sigs.

(** The body of the reporting loop, for one entry [s]. *)
Definition observe (st : listener) (s : rpc_TransactionSignature) : listener :=
  let sigStr := Signature_String (sig_Signature s) in
  if decide (sigStr ∈ seen st) then st
  else {| seen := {[sigStr]} ∪ seen st;
          logged := logged st ++ [TxObserved sigStr (sig_Slot s)] |}.

(** The loop [for { select { ... } }].  [poll n] is the answer to the
    [n]-th call of [GetSignaturesForAddress] on the listener's client,
    [cases] the cases that the successive [select]s take, [calls] the
    number of calls made so far.  The reporting loop runs from the last
    entry of the listing to the first.  The result is the error returned,
    or [None] while the loop is still waiting in [select]. *)
Fixpoint poll_loop (poll : nat → list rpc_TransactionSignature + error)
    (cases : list select_case) (calls : nat) (st : listener) : option error * listener :=
  match cases with
  | [] => (None, st)
  | Done ctxErr :: _ => (Some ctxErr, st)
  | Tick :: cases =>
      match poll calls with
      | inr e =>
          poll_loop poll cases (S calls)
            {| seen := seen st; logged := logged st ++ [PollError e] |}
      | inl sigs =>
          poll_loop poll cases (S calls) (foldl observe st (reverse sigs))
      end
  end.

(** [upstream url wallet n] is the answer of the node at [url] to the
    [n]-th listing of [wallet]; the call number 0 seeds the set. *)
Definition ListenWalletTransactions
    (upstream : string → solana_PublicKey → nat → list rpc_TransactionSignature + error)
    (wsURL : string) (wallet : solana_PublicKey) (cases : list select_case)
    : option error * listener :=
  let httpURL := ListenWalletTransactions_httpURL wsURL in
  let poll := upstream httpURL wallet in
  let log := [Listening (PublicKey_String wallet)] in
  let seen :=
    match poll 0 with
    | inl sigs => seed ∅ sigs
    | inr _ => ∅
    end in
  poll_loop poll cases 1 {| seen := seen; logged := log |}.

End Listener.

(** A node for the demo instance: two transactions at first, one more at
    the second poll, an error at the third, two more at the fourth. *)
Definition demo_upstream (url : string) (wallet : string) (n : nat)
    : list (@rpc_TransactionSignature demo) + error :=
  if negb (bool_decide (url = "https://rpc.example")) then inr "no such host" else
  match n with
  | 0 | 1 => inl (drop 3 demo_history)
  | 2 => inl (drop 2 demo_history)
  | 3 => inr "429 Too Many Requests"
  | _ => inl demo_history
  end.

(** ** The token registry *)

Record TokenInfo : Type := {
  Address : string;
  Symbol : string;
  Name : string
}.

(** What an HTTP GET comes to: the request cannot be built, the exchange
    fails, or there is a response with its status code, its status line
    and the outcome of reading its body. *)
Inductive http_exchange : Type :=
| RequestError (e : error)
| TransportError (e : error)
| Response (StatusCode : nat) (Status : string) (body : string + error).

(** The state behind [LoadDefaultRegistry]: whether [registryOnce] has
    run, and the two package variables it fills. *)
Record registry_state : Type := {
  registryOnce : bool;
  registryData : option (gmap string TokenInfo);
  registryErr : option error
}.

Definition registry_initial : registry_state :=
  {| registryOnce := false; registryData := None; registryErr := None |}.

Section Registry.

(** [encoding/json]: the decoding of a body into a list of entries, and
    into the token list with its field [tokens]. *)
Variable Unmarshal_items : string → list TokenInfo + error.
Variable Unmarshal_tokenListResponse : string → list TokenInfo + error.

(** The order in which [for k, v := range m] visits a map; Go leaves it
    open. *)
Variable range : gmap string TokenInfo → list (string * TokenInfo).

(** The network, as seen by [http.DefaultClient]. *)
Variable net : string → http_exchange.

Definition loadJupiterList (url : string)
    : option (gmap string TokenInfo) * option error :=
  match net url with
  | RequestError e => (None, Some ("build jupiter req: " +:+ e))
  | TransportError e => (None, Some ("fetch jupiter: " +:+ e))
  | Response StatusCode Status body =>
      if negb (bool_decide (StatusCode = 200))
      then (None, Some ("jupiter http status: " +:+ Status))
      else
        match body with
        | inr e => (None, Some ("read jupiter: " +:+ e))
        | inl body =>
            match Unmarshal_items body with
            | inr e => (None, Some ("decode jupiter: " +:+ e))
            | inl items =>
                let out :=
                  foldl (fun out it =>
                           if decide (Address it = "") then out
                           else <[Address it :=
                                    {| Address := Address it; Symbol := Symbol it;
                                       Name := Name it |}]> out)
                        ∅ items in
                (Some out, None)
            end
        end
  end.

Definition tokenListURL : string :=
  "https://cdn.jsdelivr.net/gh/solana-labs/token-list@main/src/tokens/solana.tokenlist.json".

Definition loadSolanaLabsList : option (gmap string TokenInfo) * option error :=
  match net tokenListURL with
  | RequestError e => (None, Some ("build registry request: " +:+ e))
  | TransportError e => (None, Some ("fetch registry: " +:+ e))
  | Response StatusCode Status body =>
      if negb (bool_decide (StatusCode = 200))
      then (None, Some ("registry http status: " +:+ Status))
      else
        match body with
        | inr e => (None, Some ("read registry: " +:+ e))
        | inl body =>
            match Unmarshal_tokenListResponse body with
            | inr e => (None, Some ("decode registry: " +:+ e))
            | inl tokens =>
                let byMint := foldl (fun byMint t => <[Address t := t]> byMint) ∅ tokens in
                (Some byMint, None)
            end
        end
  end.

(** [for k, v := range m { merged[k] = v }]; ranging over a nil map visits
    nothing. *)
Definition merge_all (merged : gmap string TokenInfo)
    (m : option (gmap string TokenInfo)) : gmap string TokenInfo :=
  foldl (fun merged kv => <[fst kv := snd kv]> merged) merged (range (default ∅ m)).

(** [for k, v := range m { if _, ok := merged[k]; !ok { merged[k] = v } }]. *)
Definition merge_missing (merged : gmap string TokenInfo)
    (m : option (gmap string TokenInfo)) : gmap string TokenInfo :=
  foldl (fun merged kv =>
           match merged !! fst kv with
           | Some _ => merged
           | None => <[fst kv := snd kv]> merged
           end)
        merged (range (default ∅ m)).

(** The function given to [registryOnce.Do]. *)
Definition registry_fill (st : registry_state) : registry_state :=
  let merged := ∅ in
  let merged :=
    match loadJupiterList "https://token.jup.ag/all" with
    | (m, None) => merge_all merged m
    | (_, Some _) => merged
    end in
  let merged :=
    match loadJupiterList "https://token.jup.ag/strict" with
    | (m, None) => merge_missing merged m
    | (_, Some _) => merged
    end in
  let merged :=
    match loadSolanaLabsList with
    | (m, None) => merge_missing merged m
    | (_, Some _) => merged
    end in
  if bool_decide (size merged = 0)
  then {| registryOnce := true; registryData := registryData st;
          registryErr := Some "no token registry sources available" |}
  else {| registryOnce := true; registryData := Some merged;
          registryErr := registryErr st |}.

Definition LoadDefaultRegistry (st : registry_state)
    : (option (gmap string TokenInfo) * option error) * registry_state :=
  let st := if registryOnce st then st else registry_fill st in
  ((registryData st, registryErr st), st).

(** The entries that a source contributes to the merge: those of its map
    when it returns no error, none otherwise. *)
Definition contribution (source : option (gmap string TokenInfo) * option error)
    : gmap string TokenInfo :=
  match source with
  | (m, None) => default ∅ m
  | (_, Some _) => ∅
  end.

End Registry.

(** A network for the demo: the full Jupiter list answers, the strict
    list is unavailable, the legacy list answers. *)
Definition demo_Unmarshal (body : string) : list TokenInfo + error :=
  if decide (body = "all")
  then inl [ {| Address := "MintA"; Symbol := "AAA"; Name := "Token A" |};
             {| Address := ""; Symbol := "???"; Name := "no address" |};
             {| Address := "MintB"; Symbol := "BBB"; Name := "Token B" |};
             {| Address := "MintA"; Symbol := "AA2"; Name := "Token A again" |} ]
  else if decide (body = "labs")
  then inl [ {| Address := "MintB"; Symbol := "old-B"; Name := "Legacy B" |};
             {| Address := "MintC"; Symbol := "CCC"; Name := "Token C" |} ]
  else inr "invalid character".

Definition demo_net (url : string) : http_exchange :=
  if decide (url = "https://token.jup.ag/all") then Response 200 "200 OK" (inl "all")
  else if decide (url = "https://token.jup.ag/strict")
  then Response 503 "503 Service Unavailable" (inl "")
  else if decide (url = tokenListURL) then Response 200 "200 OK" (inl "labs")
  else TransportError "no such host".

Definition demo_net_down (url : string) : http_exchange := TransportError "no such host".

(** ** The portfolio: the holdings that [PrintUserTokens] collects *)

Module Holding.
Record TokenHolding : Type := {
  Mint : string;
  UiAmount : string;
  Decimals : Z;
  Name : string;
  Symbol : string
}.
End Holding.

(** One element of [rpcResp.Result.Value], as far as the loop reads it:
    the fields [mint], [tokenAmount.uiAmountString] and
    [tokenAmount.decimals] of the parsed account. *)
Record token_account : Type := {
  acc_Mint : string;
  acc_UiAmountString : string;
  acc_Decimals : Z
}.

(** The registry that the loop uses: the loaded one, or an empty map
    when loading failed. *)
Definition PrintUserTokens_registry
    (loaded : option (gmap string TokenInfo) * option error) : gmap string TokenInfo :=
  match loaded with
  | (registry, None) => default ∅ registry
  | (_, Some _) => ∅
  end.

(** The loop [for _, item := range rpcResp.Result.Value] of
    [PrintUserTokens], from [holdings := make([]TokenHolding, 0)]. *)
Definition PrintUserTokens_holdings (registry : gmap string TokenInfo)
    (value : list token_account) : slice Holding.TokenHolding :=
  foldl (fun holdings item =>
           let mint := acc_Mint item in
           let amt := acc_UiAmountString item in
           let decimals := acc_Decimals item in
           if bool_decide (amt = "") || bool_decide (amt = "0") || bool_decide (amt = "0.0")
              || bool_decide (amt = "0.00") || bool_decide (amt = "0.000")
           then holdings
           else
             let '(name, symbol) :=
               match registry !! mint with
               | Some info => (Name info, Symbol info)
               | None =>
                   if bool_decide (mint = "So11111111111111111111111111111111111111112")
                   then ("Wrapped SOL", "wSOL")
                   else ("", "")
               end in
             append holdings
               {| Holding.Mint := mint; Holding.UiAmount := amt;
                  Holding.Decimals := decimals; Holding.Name := name;
                  Holding.Symbol := symbol |})
        (make 0 0 {| Holding.Mint := ""; Holding.UiAmount := ""; Holding.Decimals := 0;
                     Holding.Name := ""; Holding.Symbol := "" |})
        value.

(** ** formatter.go: the rows of the tables *)

Record TransactionFormatter : Type := { showFullData : bool }.

Definition NewTransactionFormatter (showFullData : bool) : TransactionFormatter :=
  {| showFullData := showFullData |}.

(** A cell of a [table.Row]: an integer or a string.  The formatter only
    builds the rows; the rendering belongs to go-pretty. *)
Inductive cell : Type :=
| CellInt (n : Z)
| CellStr (s : string).

(** [fmt.Sprintf("%d", n)] for a natural number. *)
Definition Sprintf_d (n : nat) : string := pretty n.

(** The loop of [formatProgramLogs], from the index [i] on. *)
Fixpoint formatProgramLogs_rows (f : TransactionFormatter) (maxLogs i : nat)
    (logs : list string) : list (list cell) :=
  match logs with
  | [] => []
  | logMsg :: logs =>
      if bool_decide (maxLogs ≤ i) then []
      else
        let logMsg :=
          if bool_decide (80 < String.length logMsg) && negb (showFullData f)
          then str_take 77 logMsg +:+ "..."
          else logMsg in
        [CellInt (Z.of_nat i + 1); CellStr logMsg]
          :: formatProgramLogs_rows f maxLogs (S i) logs
  end.

(** The rows that [formatProgramLogs] appends to its table. *)
Definition formatProgramLogs (f : TransactionFormatter) (logs : list string) : list (list cell) :=
  let maxLogs := 5 in
  let maxLogs := if showFullData f then length logs else maxLogs in
  let rows := formatProgramLogs_rows f maxLogs 0 logs in
  if bool_decide (maxLogs < length logs)
  then rows ++ [[CellStr "...";
                 CellStr ("and " +:+ Sprintf_d (length logs - maxLogs) +:+ " more logs")]]
  else rows.

(** [solana.CompiledInstruction]: the index of the program among the
    account keys, the indices of the accounts, the data bytes. *)
Record solana_CompiledInstruction : Type := {
  ProgramIDIndex : N;
  Accounts : list N;
  Data : list N
}.

(** [s[:n]]: a run-time panic when [s] is shorter than [n]. *)
Definition slice_to (s : string) (n : nat) : outcome string :=
  if bool_decide (n ≤ String.length s) then Returned (str_take n s)
  else Panicked "slice bounds out of range".

(** [fmt.Sprintf("%v", accounts)] for a slice of unsigned integers. *)
Definition Sprintf_v (accounts : list N) : string :=
  "[" +:+ String.concat " " (pretty <$> accounts) +:+ "]".

Section Formatter.

Context `{SolanaGo}.

(** The loop of [formatInstructions], from the index [i] on. *)
Fixpoint formatInstructions_rows (f : TransactionFormatter) (maxInstr i : nat)
    (instructions : list solana_CompiledInstruction)
    (accountKeys : list solana_PublicKey) : outcome (list (list cell)) :=
  match instructions with
  | [] => Returned []
  | instr :: instructions =>
      if bool_decide (maxInstr ≤ i) then Returned []
      else
        programID ←
          (if bool_decide (N.to_nat (ProgramIDIndex instr) < length accountKeys)
           then
             key ← at_index accountKeys (N.to_nat (ProgramIDIndex instr));
             short ← slice_to (PublicKey_String key) 8;
             Returned (short +:+ "...")
           else Returned "Unknown");
        let accounts := Sprintf_v (Accounts instr) in
        let accounts :=
          if bool_decide (20 < String.length accounts)
          then str_take 17 accounts +:+ "..."
          else accounts in
        rows ← formatInstructions_rows f maxInstr (S i) instructions accountKeys;
        Returned ([CellInt (Z.of_nat i + 1); CellStr programID; CellStr accounts;
                   CellStr (Sprintf_d (length (Data instr)) +:+ " bytes")] :: rows)
  end.

(** The rows that [formatInstructions] appends to its table. *)
Definition formatInstructions (f : TransactionFormatter)
    (instructions : list solana_CompiledInstruction)
    (accountKeys : list solana_PublicKey) : outcome (list (list cell)) :=
  let maxInstr := 3 in
  let maxInstr := if showFullData f then length instructions else maxInstr in
  rows ← formatInstructions_rows f maxInstr 0 instructions accountKeys;
  if bool_decide (maxInstr < length instructions)
  then Returned
         (rows ++ [[CellStr "...";
                    CellStr ("and " +:+ Sprintf_d (length instructions - maxInstr)
                             +:+ " more instructions");
                    CellStr ""; CellStr ""]])
  else Returned rows.

End Formatter.

(** More inputs for the demo instance. *)

(** The goroutines that a run with limit 2 launches on the demo wallet. *)
Definition demo_tasks : list (nat * @rpc_TransactionSignature demo) :=
  zip (seq 0 2) (take 2 demo_history).

(** A client that agrees with [demo_client] on the first two entries of
    the wallet and on their transactions, and on nothing else. *)
Definition demo_other_client : @rpc_Client demo :=
  @Build_rpc_Client demo
    (fun account : string =>
       inl (take 2 demo_history
              ++ [@Build_rpc_TransactionSignature demo "T9" 1%N None]))
    (fun sig : string =>
       if decide (sig = "S0") then @GetTransaction demo demo_client "S0"
       else if decide (sig = "S1") then @GetTransaction demo demo_client "S1"
       else inr "pruned").

Definition demo_other_service : @TransactionService demo :=
  NewTransactionService demo_other_client.

Definition demo_env_wallet : environ := <["WALLET_ADDRESS" := "wallet"]> demo_env.

(** A listing whose second entry is nil. *)
Definition demo_raw_history : list (option (@rpc_TransactionSignature demo)) :=
  [ Some (@Build_rpc_TransactionSignature demo "S0" 300%N (Some 1700000300%Z));
    None;
    Some (@Build_rpc_TransactionSignature demo "S2" 100%N (Some 1700000100%Z)) ].

(** The wallet "wallet" has that listing; any other address fails to
    list; the transactions are those of [demo_client]. *)
Definition demo_raw_client : @rpc_RawClient demo :=
  @Build_rpc_RawClient demo
    (fun account : string =>
       if decide (account = "wallet") then inl demo_raw_history
       else inr "rpc: connection refused")
    (@GetTransaction demo demo_client).

Definition demo_keys : list (@solana_PublicKey demo) :=
  ["11111111111111111111111111111111"; "TokenkegQfeZyiNwAJbNbGKPFXCWuBvf9Ss623VQ5DA"].

Definition demo_instructions : list solana_CompiledInstruction :=
  [ {| ProgramIDIndex := 1; Accounts := [0; 2; 3]; Data := [3; 0; 0; 0] |};
    {| ProgramIDIndex := 7; Accounts := [10; 11; 12; 13; 14; 15; 16; 17]; Data := [] |} ]%N.

(** * Properties *)

(** ** Lists *)

Lemma omap_ext_elem_of {A B} (f g : A → option B) (l : list A) :
  (∀ x, x ∈ l → f x = g x) → omap f l = omap g l.
Proof.
  induction l as [|x l IH]; intros Hfg; [done|].
  assert (Htl : omap f l = omap g l).
  { apply IH. intros y Hy. apply Hfg. by right. }
  cbn. rewrite (Hfg x) by left. fold (omap g l). fold (omap f l).
  by rewrite Htl.
Qed.

Lemma omap_lookup_seq {A} (l : list A) :
  omap (fun k => l !! k) (seq 0 (length l)) = l.
Proof.
  induction l as [|x l IH] using rev_ind; [done|].
  rewrite length_app, Nat.add_1_r, seq_S, omap_app. simpl.
  rewrite list_lookup_middle by done. simpl. f_equal.
  rewrite <- IH at 2. apply omap_ext_elem_of.
  intros k Hk. apply elem_of_seq in Hk. apply lookup_app_l. lia.
Qed.

(** The elements [omap] keeps, with where they come from. *)
Lemma omap_provenance {A B} (f : A → option B) (l : list A) :
  Forall2 (fun x y => f x = Some y) (filter (fun x => is_Some (f x)) l) (omap f l).
Proof.
  induction l as [|x l IH]; [constructor|].
  rewrite filter_cons. simpl.
  destruct (f x) as [y|] eqn:Hfx.
  - rewrite decide_True by done. by constructor.
  - rewrite decide_False; [done|]. by intros [? ?].
Qed.

Lemma StronglySorted_lt_seq (j n : nat) : StronglySorted lt (seq j n).
Proof.
  revert j. induction n as [|n IH]; intros j; simpl; constructor; [done|].
  apply Forall_forall. intros k Hk. apply elem_of_seq in Hk. lia.
Qed.

Lemma StronglySorted_filter {A} (R : relation A) (P : A → Prop)
    `{∀ x, Decision (P x)} (l : list A) :
  StronglySorted R l → StronglySorted R (filter P l).
Proof.
  induction 1 as [|x l Hl IH Hx]; [constructor|].
  rewrite filter_cons. case_decide; [|done].
  constructor; [done|].
  apply Forall_forall. intros y Hy. apply list_elem_of_filter in Hy as [_ Hy].
  by eapply Forall_forall in Hx.
Qed.

Lemma StronglySorted_lt_NoDup (l : list nat) : StronglySorted lt l → NoDup l.
Proof.
  induction 1 as [|x l Hl IH Hx]; constructor; [|done].
  intros Hin. eapply Forall_forall in Hx; [|done]. lia.
Qed.

(** ** Strings *)

Lemma substring_all (s : string) : substring 0 (String.length s) s = s.
Proof. induction s as [|c s IH]; [done|]. simpl. by rewrite IH. Qed.

Lemma str_length_app (s1 s2 : string) :
  String.length (s1 +:+ s2) = String.length s1 + String.length s2.
Proof. induction s1 as [|c s1 IH]; [done|]. simpl. by rewrite IH. Qed.

Lemma str_take_prefix (pre rest : string) :
  str_take (String.length pre) (pre +:+ rest) = pre.
Proof.
  unfold str_take. induction pre as [|c pre IH]; simpl.
  - by destruct rest.
  - by rewrite IH.
Qed.

Lemma str_drop_prefix (pre rest : string) :
  str_drop (String.length pre) (pre +:+ rest) = rest.
Proof.
  unfold str_drop. induction pre as [|c pre IH]; simpl.
  - by rewrite Nat.sub_0_r, substring_all.
  - done.
Qed.

Lemma str_contains_intro (before sub after : string) :
  str_contains (before +:+ sub +:+ after) sub.
Proof. by exists before, after. Qed.

Section PipelineFacts.

Context `{SolanaGo}.
Implicit Types (t : TransactionService) (signatures : list rpc_TransactionSignature).
Implicit Types (limit now : Z) (order : list nat).

(** *** The bound *)

Lemma processCount_le signatures limit :
  processCount signatures limit ≤ length signatures.
Proof.
  unfold processCount.
  destruct (bool_decide (0 < limit)%Z) eqn:H0; simpl; [|done].
  destruct (bool_decide (limit < Z.of_nat (length signatures))%Z) eqn:H1; [|done].
  apply bool_decide_eq_true in H0, H1. lia.
Qed.

(** *** The launch loop *)

Lemma launch_Returned signatures i n :
  i + n ≤ length signatures →
  launch signatures i n = Returned (zip (seq i n) (take n (drop i signatures))).
Proof.
  revert i. induction n as [|n IH]; intros i Hle; [done|].
  destruct (lookup_lt_is_Some_2 signatures i) as [sig Hsig]; [lia|].
  cbn [launch]. unfold at_index. rewrite Hsig. simpl.
  rewrite IH by lia. simpl.
  by rewrite (drop_S _ _ _ Hsig).
Qed.

Lemma launch_fst signatures n :
  n ≤ length signatures →
  (zip (seq 0 n) (take n signatures)).*1 = seq 0 n.
Proof.
  intros Hle. apply fst_zip.
  rewrite length_seq, length_take. lia.
Qed.

Lemma launch_elem_of signatures n k sig :
  n ≤ length signatures →
  (k, sig) ∈ zip (seq 0 n) (take n signatures) ↔ k < n ∧ signatures !! k = Some sig.
Proof.
  intros Hle. rewrite list_elem_of_lookup. split.
  - intros [j Hj]. apply lookup_zip_Some in Hj as [Hk Hs].
    apply lookup_seq in Hk as [-> Hj]. simpl.
    by rewrite lookup_take_lt in Hs.
  - intros [Hk Hs]. exists k. apply lookup_zip_Some. split.
    + by apply lookup_seq.
    + by rewrite lookup_take_lt.
Qed.

(** *** Completion orders *)

Lemma completed_Permutation {A} (tasks : list A) order :
  order ≡ₚ seq 0 (length tasks) → completed tasks order ≡ₚ tasks.
Proof.
  intros Horder. unfold completed. rewrite Horder.
  by rewrite omap_lookup_seq.
Qed.

(** *** The receiving loop *)

Lemma collect_snoc (rs : list transactionResult) r :
  collect (rs ++ [r]) = receive (collect rs) r.
Proof. unfold collect. by rewrite foldl_app. Qed.

Lemma collect_lookup (rs : list transactionResult) i x :
  NoDup (index <$> rs) →
  collect rs !! i = Some x ↔
  ∃ r, r ∈ rs ∧ index r = i ∧ err r = None ∧ info r = x.
Proof.
  induction rs as [|r rs IH] using rev_ind; intros Hnd.
  - unfold collect. simpl. rewrite lookup_empty. split; [done|].
    intros (r & Hr & _). by apply elem_of_nil in Hr.
  - rewrite fmap_app in Hnd. apply NoDup_app in Hnd as (Hnd & Hfresh & _).
    specialize (IH Hnd).
    assert (Hother : ∀ r', r' ∈ rs → index r' ≠ index r).
    { intros r' Hr' Heq. apply (Hfresh (index r')).
      - by apply list_elem_of_fmap_2.
      - rewrite Heq. simpl. left. }
    rewrite collect_snoc. unfold receive.
    destruct (err r) as [e|] eqn:Herr.
    + rewrite IH. split.
      * intros (r' & Hr' & ?). exists r'. split; [|done].
        apply elem_of_app. by left.
      * intros (r' & Hr' & Hi & He & Hx). apply elem_of_app in Hr' as [Hr'|Hr'].
        -- by exists r'.
        -- apply list_elem_of_singleton in Hr'. subst r'. congruence.
    + destruct (decide (index r = i)) as [<-|Hne].
      * rewrite lookup_insert_eq. split.
        -- intros [= <-]. exists r. split; [|done].
           apply elem_of_app. right. left.
        -- intros (r' & Hr' & Hi & He & Hx). apply elem_of_app in Hr' as [Hr'|Hr'].
           ++ by destruct (Hother r' Hr').
           ++ apply list_elem_of_singleton in Hr'. subst r'. by rewrite Hx.
      * rewrite lookup_insert_ne by done. rewrite IH. split.
        -- intros (r' & Hr' & ?). exists r'. split; [|done].
           apply elem_of_app. by left.
        -- intros (r' & Hr' & Hi & He & Hx). apply elem_of_app in Hr' as [Hr'|Hr'].
           ++ by exists r'.
           ++ apply list_elem_of_singleton in Hr'. by subst r'.
Qed.

(** The map does not depend on the order of arrival. *)
Lemma collect_Permutation (rs rs' : list transactionResult) :
  NoDup (index <$> rs) → rs ≡ₚ rs' → collect rs = collect rs'.
Proof.
  intros Hnd Hperm. apply map_eq. intros i. apply option_eq. intros x.
  rewrite !collect_lookup; [|by rewrite <- Hperm|done].
  by setoid_rewrite Hperm.
Qed.

(** *** What the tasks send *)

Lemma fetchTask_index t i sig : index (fetchTask t i sig) = i.
Proof. unfold fetchTask. by destruct (GetTransaction _ _). Qed.

Lemma fetchTask_failure t i sig e :
  GetTransaction (client t) (sig_Signature sig) = inr e →
  err (fetchTask t i sig) = Some e.
Proof. intros Hget. unfold fetchTask. by rewrite Hget. Qed.

Lemma sent_index t (tasks : list (nat * rpc_TransactionSignature)) :
  index <$> ((fun task => fetchTask t (fst task) (snd task)) <$> tasks) = tasks.*1.
Proof.
  rewrite <- list_fmap_compose. apply list_fmap_ext.
  intros _ [i sig] _. apply fetchTask_index.
Qed.

Lemma record_Some t signatures i x :
  record t signatures i = Some x ↔
  ∃ sig, signatures !! i = Some sig ∧ err (fetchTask t i sig) = None
         ∧ info (fetchTask t i sig) = x.
Proof.
  unfold record. destruct (signatures !! i) as [sig|]; simpl.
  - destruct (err (fetchTask t i sig)) eqn:Herr; split.
    + done.
    + intros (sig' & [= <-] & He & _). congruence.
    + intros [= <-]. by exists sig.
    + intros (sig' & [= <-] & _ & Hx). by rewrite Hx.
  - split; [done|]. by intros (sig & ? & _).
Qed.

Lemma record_failure t signatures i sig e :
  signatures !! i = Some sig →
  GetTransaction (client t) (sig_Signature sig) = inr e →
  record t signatures i = None.
Proof.
  intros Hsig Hget. unfold record. rewrite Hsig. simpl.
  by rewrite (fetchTask_failure _ _ _ _ Hget).
Qed.

(** *** The map after the receiving loop *)

Lemma collect_launched t signatures n i :
  n ≤ length signatures →
  collect ((fun task => fetchTask t (fst task) (snd task))
             <$> zip (seq 0 n) (take n signatures)) !! i
  = if decide (i < n) then record t signatures i else None.
Proof.
  intros Hle. apply option_eq. intros x.
  rewrite collect_lookup.
  2:{ rewrite sent_index, (launch_fst signatures n) by done. apply NoDup_seq. }
  split.
  - intros (r & Hr & Hi & He & Hx).
    apply list_elem_of_fmap in Hr as ([k sig] & -> & Htask).
    apply launch_elem_of in Htask as [Hk Hsig]; [|done].
    simpl in *. rewrite fetchTask_index in Hi. subst k.
    rewrite decide_True by done. apply record_Some. by exists sig.
  - case_decide as Hi; [|done].
    intros Hrec. apply record_Some in Hrec as (sig & Hsig & He & Hx).
    exists (fetchTask t i sig). split_and!; [|apply fetchTask_index|done|done].
    apply list_elem_of_fmap. exists (i, sig). split; [done|].
    by apply launch_elem_of.
Qed.

(** *** The assembly loop *)

Lemma assemble_SliceOf (m : gmap nat TransactionInfo) i n acc :
  assemble m i n (SliceOf acc) = SliceOf (acc ++ omap (fun k => m !! k) (seq i n)).
Proof.
  revert i acc. induction n as [|n IH]; intros i acc.
  - simpl. by rewrite app_nil_r.
  - cbn [assemble seq]. cbn. fold (omap (fun k => m !! k) (seq (S i) n)).
    destruct (m !! i) as [txInfo|].
    + unfold append. simpl. rewrite IH. by rewrite <- app_assoc.
    + by rewrite IH.
Qed.

(** *** The whole call *)

Lemma FetchAccountTransactions_failure t account limit now order e :
  GetSignaturesForAddress (client t) account = inr e →
  FetchAccountTransactions t account limit now order
  = Returned (None, Some ("failed to get signatures for account "
                          +:+ PublicKey_String account +:+ ": " +:+ e)).
Proof. intros Hlist. unfold FetchAccountTransactions. by rewrite Hlist. Qed.

(** For every order, valid or not, the call returns a batch. *)
Lemma FetchAccountTransactions_batch t account limit now order signatures :
  GetSignaturesForAddress (client t) account = inl signatures →
  ∃ transactions,
    FetchAccountTransactions t account limit now order
    = Returned (Some {| Account := account; Transactions := SliceOf transactions;
                        LastFetched := now |}, None).
Proof.
  intros Hlist. unfold FetchAccountTransactions. rewrite Hlist.
  rewrite launch_Returned by apply processCount_le. simpl.
  unfold make. simpl. rewrite assemble_SliceOf. by eexists.
Qed.

(** For every completion order the batch is the records of the tasks
    that succeeded, by ascending index. *)
Lemma FetchAccountTransactions_Returned t account limit now order signatures :
  GetSignaturesForAddress (client t) account = inl signatures →
  order ≡ₚ seq 0 (processCount signatures limit) →
  FetchAccountTransactions t account limit now order
  = Returned (Some {| Account := account;
                      Transactions :=
                        SliceOf (omap (record t signatures)
                                      (seq 0 (processCount signatures limit)));
                      LastFetched := now |}, None).
Proof.
  intros Hlist Horder. unfold FetchAccountTransactions. rewrite Hlist.
  pose proof (processCount_le signatures limit) as Hle.
  rewrite launch_Returned by done. simpl.
  set (n := processCount signatures limit) in *.
  set (tasks := zip (seq 0 n) (take n signatures)).
  assert (Hlen : length tasks = n).
  { rewrite <- (length_fmap fst). unfold tasks.
    rewrite (launch_fst signatures n) by done. apply length_seq. }
  unfold make. simpl. rewrite assemble_SliceOf. simpl.
  fold tasks. do 5 f_equal. apply omap_ext_elem_of. intros i Hi.
  apply elem_of_seq in Hi.
  rewrite <- (collect_Permutation
                ((fun task => fetchTask t (fst task) (snd task)) <$> tasks)).
  - unfold tasks. rewrite collect_launched by done. by rewrite decide_True by lia.
  - rewrite sent_index. unfold tasks.
    rewrite (launch_fst signatures n) by done. apply NoDup_seq.
  - apply fmap_Permutation. symmetry. apply completed_Permutation.
    by rewrite Hlen.
Qed.

(** The indices of the records of a batch. *)
Lemma batch_indices t signatures n :
  let idxs := filter (fun i => is_Some (record t signatures i)) (seq 0 n) in
  StronglySorted lt idxs
  ∧ (∀ i, i ∈ idxs ↔ i < n ∧ is_Some (record t signatures i))
  ∧ Forall2 (fun i txInfo => record t signatures i = Some txInfo)
            idxs (omap (record t signatures) (seq 0 n)).
Proof.
  intros idxs. split_and!.
  - apply StronglySorted_filter, StronglySorted_lt_seq.
  - intros i. unfold idxs. rewrite list_elem_of_filter, elem_of_seq.
    split; intros [? ?]; split; (done || lia).
  - apply omap_provenance.
Qed.

(** *** The goroutines and the completion order

    Every complete run of the goroutines leaves in the map what
    [collect] computes over a completion order, and every completion
    order is the order of sending of some run. *)

Lemma step_invariant t tasks p :
  rtc (step t) (launched tasks) p →
  ∃ sent k,
    k ≤ length sent
    ∧ sent ++ running p ≡ₚ tasks
    ∧ resultMap p = collect ((fun task => fetchTask t (fst task) (snd task)) <$> take k sent)
    ∧ resultChan p = (fun task => fetchTask t (fst task) (snd task)) <$> drop k sent.
Proof.
  revert p. apply rtc_ind_r.
  - exists [], 0. by split_and!.
  - intros p p' _ Hstep (sent & k & Hk & Hperm & Hmap & Hchan).
    destruct Hstep as [before task after chan m|rest result chan m]; simpl in *.
    + exists (sent ++ [task]), k. split_and!.
      * rewrite length_app. lia.
      * rewrite <- Hperm, <- app_assoc. simpl.
        by rewrite (Permutation_middle before after task).
      * by rewrite take_app_le.
      * rewrite drop_app_le by done. by rewrite fmap_app, Hchan.
    + destruct (drop k sent) as [|task later] eqn:Hdrop; [done|].
      simpl in Hchan. injection Hchan as -> ->.
      assert (Hlook : sent !! k = Some task).
      { rewrite <- (Nat.add_0_r k), <- lookup_drop. by rewrite Hdrop. }
      exists sent, (S k). split_and!.
      * by apply lookup_lt_Some in Hlook.
      * done.
      * rewrite (take_S_r _ _ _ Hlook), fmap_app. simpl.
        by rewrite collect_snoc, Hmap.
      * rewrite (drop_S _ _ _ Hlook) in Hdrop. by injection Hdrop as ->.
Qed.

Lemma goroutines_joined t signatures limit order p :
  order ≡ₚ seq 0 (processCount signatures limit) →
  rtc (step t)
      (launched (zip (seq 0 (processCount signatures limit))
                     (take (processCount signatures limit) signatures))) p →
  joined p →
  resultMap p
  = collect ((fun task => fetchTask t (fst task) (snd task))
               <$> completed (zip (seq 0 (processCount signatures limit))
                                  (take (processCount signatures limit) signatures))
                             order).
Proof.
  intros Horder Hrun [Hrunning Hchan].
  pose proof (processCount_le signatures limit) as Hle.
  set (n := processCount signatures limit) in *.
  set (tasks := zip (seq 0 n) (take n signatures)) in *.
  assert (Hnodup : NoDup tasks.*1).
  { unfold tasks. rewrite launch_fst by done. apply NoDup_seq. }
  assert (Hlen : length tasks = n).
  { rewrite <- (length_fmap fst). unfold tasks.
    rewrite launch_fst by done. apply length_seq. }
  destruct (step_invariant t tasks p Hrun) as (sent & k & Hk & Hperm & Hmap & Hdrop).
  rewrite Hrunning, app_nil_r in Hperm.
  rewrite Hchan in Hdrop. symmetry in Hdrop.
  apply fmap_nil_inv, drop_nil_inv in Hdrop.
  rewrite take_ge in Hmap by done. rewrite Hmap.
  transitivity (collect ((fun task => fetchTask t (fst task) (snd task)) <$> tasks)).
  - symmetry. apply collect_Permutation; [by rewrite sent_index|].
    by apply fmap_Permutation.
  - apply collect_Permutation; [by rewrite sent_index|].
    apply fmap_Permutation. symmetry. apply completed_Permutation.
    by rewrite Hlen.
Qed.

Lemma goroutines_send t sent tasks chan m :
  sent ≡ₚ tasks →
  rtc (step t)
      {| running := tasks; resultChan := chan; resultMap := m |}
      {| running := [];
         resultChan := chan ++ ((fun task => fetchTask t (fst task) (snd task)) <$> sent);
         resultMap := m |}.
Proof.
  revert tasks chan. induction sent as [|task sent IH]; intros tasks chan Hperm.
  - apply Permutation_nil_l in Hperm. subst tasks. simpl. by rewrite app_nil_r.
  - assert (Hin : task ∈ tasks) by (rewrite <- Hperm; left).
    apply list_elem_of_split in Hin as (before & after & ->).
    rewrite <- Permutation_middle in Hperm. apply Permutation_cons_inv in Hperm.
    eapply rtc_l; [apply step_send|].
    rewrite fmap_cons.
    replace (chan ++ fetchTask t (fst task) (snd task)
               :: ((fun task => fetchTask t (fst task) (snd task)) <$> sent))
      with ((chan ++ [fetchTask t (fst task) (snd task)])
              ++ ((fun task => fetchTask t (fst task) (snd task)) <$> sent))
      by (by rewrite <- app_assoc).
    by apply IH.
Qed.

Lemma goroutines_receive t chan m :
  rtc (step t)
      {| running := []; resultChan := chan; resultMap := m |}
      {| running := []; resultChan := []; resultMap := foldl receive m chan |}.
Proof.
  revert m. induction chan as [|result chan IH]; intros m; [done|].
  eapply rtc_l; [apply step_receive|]. apply IH.
Qed.

Lemma goroutines_run t (tasks : list (nat * rpc_TransactionSignature)) order :
  order ≡ₚ seq 0 (length tasks) →
  ∃ p, rtc (step t) (launched tasks) p ∧ joined p
       ∧ resultMap p
         = collect ((fun task => fetchTask t (fst task) (snd task))
                      <$> completed tasks order).
Proof.
  intros Horder. eexists. split_and!.
  - etrans; [|apply goroutines_receive].
    apply (goroutines_send t (completed tasks order) tasks [] ∅).
    by apply completed_Permutation.
  - done.
  - done.
Qed.

(** ** The claims about the pipeline *)

(** C1. For every signature list and every completion order of the
    fetch tasks, the records of the batch are the records of the input
    indices whose task succeeded, in strictly ascending index order: the
    k-th record of the batch is the record of the k-th such index. *)
Theorem FetchAccountTransactions_input_order
    t account limit now order signatures :
  GetSignaturesForAddress (client t) account = inl signatures →
  order ≡ₚ seq 0 (processCount signatures limit) →
  ∃ batch idxs,
    FetchAccountTransactions t account limit now order = Returned (Some batch, None)
    ∧ StronglySorted lt idxs
    ∧ (∀ i, i ∈ idxs ↔
            i < processCount signatures limit ∧ is_Some (record t signatures i))
    ∧ Forall2 (fun i txInfo => record t signatures i = Some txInfo)
              idxs (elems (Transactions batch)).
Proof.
  intros Hlist Horder.
  destruct (batch_indices t signatures (processCount signatures limit))
    as (Hsorted & Hmem & Hrec).
  eexists _, _. split; [by apply FetchAccountTransactions_Returned|].
  by split_and!.
Qed.

(** C2. When the fetch of index [i] fails, the call still returns a
    batch and no error; the batch has no entry for [i], and holds the
    records of all other succeeding indices in ascending order: it is
    what the assembly gives over the indices other than [i]. *)
Theorem FetchAccountTransactions_failed_fetch_omitted
    t account limit now order signatures i sig e :
  GetSignaturesForAddress (client t) account = inl signatures →
  order ≡ₚ seq 0 (processCount signatures limit) →
  i < processCount signatures limit →
  signatures !! i = Some sig →
  GetTransaction (client t) (sig_Signature sig) = inr e →
  ∃ batch idxs,
    FetchAccountTransactions t account limit now order = Returned (Some batch, None)
    ∧ (i ∉ idxs)
    ∧ StronglySorted lt idxs
    ∧ (∀ j, j ≠ i → j < processCount signatures limit →
            is_Some (record t signatures j) → j ∈ idxs)
    ∧ Forall2 (fun j txInfo => record t signatures j = Some txInfo)
              idxs (elems (Transactions batch))
    ∧ elems (Transactions batch)
      = omap (record t signatures)
             (seq 0 i ++ seq (S i) (processCount signatures limit - S i)).
Proof.
  intros Hlist Horder Hi Hsig Hget.
  pose proof (record_failure _ _ _ _ _ Hsig Hget) as Hnone.
  destruct (batch_indices t signatures (processCount signatures limit))
    as (Hsorted & Hmem & Hrec).
  eexists _, _. split; [by apply FetchAccountTransactions_Returned|].
  split_and!; [|done| |done|].
  - rewrite Hmem, Hnone. intros [_ [? ?]]. done.
  - intros j _ Hj Hsome. by apply Hmem.
  - simpl.
    replace (processCount signatures limit)
      with (i + S (processCount signatures limit - S i)) at 1 by lia.
    rewrite seq_app, !omap_app. cbn [seq]. f_equal.
    cbn. by rewrite Hnone.
Qed.

(** C3. The number of tasks launched is [min(N, limit)] for a positive
    limit and [N] otherwise; the launch loop starts exactly the tasks of
    the indices below that number, each on the signature at its index;
    with limit 2 and five signatures it starts two tasks, of the indices
    0 and 1. *)
Theorem processCount_launch signatures limit :
  Z.of_nat (processCount signatures limit)
  = (if decide (0 < limit)%Z
     then Z.of_nat (length signatures) `min` limit
     else Z.of_nat (length signatures))%Z
  ∧ (∃ tasks,
      launch signatures 0 (processCount signatures limit) = Returned tasks
      ∧ tasks.*1 = seq 0 (processCount signatures limit)
      ∧ (∀ k sig, (k, sig) ∈ tasks → signatures !! k = Some sig))
  ∧ (length signatures = 5 → limit = 2%Z →
     processCount signatures limit = 2
     ∧ ∃ tasks,
         launch signatures 0 (processCount signatures limit) = Returned tasks
         ∧ length tasks = 2
         ∧ tasks.*1 = [0; 1]).
Proof.
  pose proof (processCount_le signatures limit) as Hle.
  split_and!.
  - unfold processCount.
    destruct (decide (0 < limit)%Z) as [H0|H0].
    + rewrite (bool_decide_eq_true_2 _ H0). simpl.
      case_bool_decide; lia.
    + by rewrite (bool_decide_eq_false_2 _ H0).
  - eexists. split; [by apply launch_Returned|]. simpl. split.
    + by apply launch_fst.
    + intros k sig Hin. by apply launch_elem_of in Hin as [_ ?].
  - intros Hlen ->.
    assert (Hcount : processCount signatures 2 = 2).
    { unfold processCount. by rewrite Hlen. }
    split; [done|].
    eexists. split; [by apply launch_Returned|]. simpl.
    assert (Hfst : (zip (seq 0 (processCount signatures 2))
                        (take (processCount signatures 2) signatures)).*1 = [0; 1]).
    { rewrite launch_fst by done. by rewrite Hcount. }
    split; [|done].
    change (drop 0 signatures) with signatures.
    by rewrite <- (length_fmap fst), Hfst.
Qed.

(** C5. For every input and every completion order, the records of the
    batch come from pairwise distinct input indices, all of them below
    the number of tasks launched; the batch is no longer than that
    number. *)
Theorem FetchAccountTransactions_indices_distinct_in_range
    t account limit now order signatures :
  GetSignaturesForAddress (client t) account = inl signatures →
  order ≡ₚ seq 0 (processCount signatures limit) →
  ∃ batch idxs,
    FetchAccountTransactions t account limit now order = Returned (Some batch, None)
    ∧ NoDup idxs
    ∧ Forall (fun i => i < processCount signatures limit) idxs
    ∧ Forall2 (fun i txInfo => record t signatures i = Some txInfo)
              idxs (elems (Transactions batch))
    ∧ len (Transactions batch) ≤ processCount signatures limit.
Proof.
  intros Hlist Horder.
  destruct (batch_indices t signatures (processCount signatures limit))
    as (Hsorted & Hmem & Hrec).
  eexists _, _. split; [by apply FetchAccountTransactions_Returned|].
  assert (Hrange : Forall (fun i => i < processCount signatures limit)
            (filter (fun i => is_Some (record t signatures i))
                    (seq 0 (processCount signatures limit)))).
  { apply Forall_forall. intros i Hin. by apply Hmem in Hin as [? _]. }
  split_and!; [by apply StronglySorted_lt_NoDup|done|done|].
  unfold len. simpl. rewrite <- (Forall2_length _ _ _ Hrec).
  etrans; [apply length_filter|]. by rewrite length_seq.
Qed.

(** C6. When the fetch of index [i] succeeds and its payload fails to
    decode, the batch still holds the record of [i], at the position
    after the records of the lower indices, with the signature, slot,
    block time and meta block of the entry and no decoded transaction;
    the call returns no error. *)
Theorem FetchAccountTransactions_decode_failure_kept
    t account limit now order signatures i sig txResult envelope e :
  GetSignaturesForAddress (client t) account = inl signatures →
  order ≡ₚ seq 0 (processCount signatures limit) →
  i < processCount signatures limit →
  signatures !! i = Some sig →
  GetTransaction (client t) (sig_Signature sig) = inl txResult →
  res_Transaction txResult = Some envelope →
  snd (Envelope_GetTransaction envelope) = Some e →
  ∃ batch,
    FetchAccountTransactions t account limit now order = Returned (Some batch, None)
    ∧ elems (Transactions batch) !! length (omap (record t signatures) (seq 0 i))
      = Some {| Signature := Signature_String (sig_Signature sig);
                Slot := sig_Slot sig;
                BlockTime := sig_BlockTime sig;
                Meta := res_Meta txResult;
                Transaction := None |}.
Proof.
  intros Hlist Horder Hi Hsig Hget Henv Hdecode.
  eexists. split; [by apply FetchAccountTransactions_Returned|].
  simpl.
  replace (processCount signatures limit)
    with (i + S (processCount signatures limit - S i)) by lia.
  rewrite seq_app, omap_app. cbn [seq].
  rewrite lookup_app_r by done. rewrite Nat.sub_diag.
  assert (Hrec : record t signatures i
                 = Some {| Signature := Signature_String (sig_Signature sig);
                           Slot := sig_Slot sig;
                           BlockTime := sig_BlockTime sig;
                           Meta := res_Meta txResult;
                           Transaction := None |}).
  { unfold record. rewrite Hsig. simpl.
    unfold fetchTask. rewrite Hget, Henv. simpl.
    destruct (Envelope_GetTransaction envelope) as [parsedTx decodeErr].
    simpl in Hdecode. subst decodeErr. simpl.
    by destruct (sig_BlockTime sig). }
  cbn. by rewrite Hrec.
Qed.

(** C7. When the listing returns no signature, the call returns, with no
    error, the batch of the queried account with an empty, non-nil
    sequence of transactions and the time of the call. *)
Theorem FetchAccountTransactions_empty t account limit now order :
  GetSignaturesForAddress (client t) account = inl [] →
  FetchAccountTransactions t account limit now order
  = Returned (Some {| Account := account; Transactions := SliceOf [];
                      LastFetched := now |}, None)
  ∧ SliceOf [] ≠ @SliceNil TransactionInfo
  ∧ len (@SliceOf TransactionInfo []) = 0.
Proof.
  intros Hlist. split; [|done].
  unfold FetchAccountTransactions. rewrite Hlist.
  pose proof (processCount_le [] limit) as Hle. simpl in Hle.
  assert (Hzero : processCount [] limit = 0) by lia.
  by rewrite Hzero.
Qed.

(** C8. Two runs against the same upstream, under any two completion
    orders and at any two times, return the same account and the same
    sequence of records, or the same error: they differ in the fetch
    timestamp only. *)
Theorem FetchAccountTransactions_deterministic
    t account limit now1 now2 order1 order2 :
  completion_order t account limit order1 →
  completion_order t account limit order2 →
  without_timestamp (FetchAccountTransactions t account limit now1 order1)
  = without_timestamp (FetchAccountTransactions t account limit now2 order2).
Proof.
  intros Horder1 Horder2.
  destruct (GetSignaturesForAddress (client t) account) as [signatures|e] eqn:Hlist.
  - rewrite (FetchAccountTransactions_Returned _ _ _ _ _ signatures) by auto.
    by rewrite (FetchAccountTransactions_Returned _ _ _ _ _ signatures) by auto.
  - by rewrite !(FetchAccountTransactions_failure _ _ _ _ _ e).
Qed.

(** C10. When the signature listing fails, the call returns a nil batch
    with an error; [main] goes on after the error and reads the
    [Transactions] field through the nil pointer, which is a run-time
    panic. *)
Theorem main_nil_dereference
    (rpc_New : string → rpc_Client) (TRANSACTIONS_LIMIT : Z) env now order
    rpcURL walletAddr e :
  GetRPCURL env = Returned rpcURL →
  GetWalletAddress env = Returned walletAddr →
  GetSignaturesForAddress (rpc_New rpcURL) (fst (GetAccountFromPublicKey walletAddr))
  = inr e →
  (∃ msg, FetchAccountTransactions (NewTransactionService (rpc_New rpcURL))
            (fst (GetAccountFromPublicKey walletAddr)) TRANSACTIONS_LIMIT now order
          = Returned (None, Some msg))
  ∧ main rpc_New TRANSACTIONS_LIMIT env now order
    = Panicked "invalid memory address or nil pointer dereference".
Proof.
  intros Hurl Hwallet Hlist.
  pose proof (FetchAccountTransactions_failure
                (NewTransactionService (rpc_New rpcURL))
                (fst (GetAccountFromPublicKey walletAddr))
                TRANSACTIONS_LIMIT now order e Hlist) as Hfetch.
  split; [by eexists|].
  unfold main. rewrite Hurl, Hwallet. simpl.
  destruct (GetAccountFromPublicKey walletAddr) as [account parseErr].
  simpl in Hfetch. by rewrite Hfetch.
Qed.

End PipelineFacts.

(** ** The listing as a slice of pointers *)

Section PointerFacts.

Context `{SolanaGo}.
Implicit Types (c : rpc_RawClient) (t : TransactionService).
Implicit Types (pointers : list (option rpc_TransactionSignature)).
Implicit Types (limit now : Z) (order : list nat).

Lemma processCount_raw_le pointers limit :
  processCount_raw pointers limit ≤ length pointers.
Proof.
  unfold processCount_raw.
  destruct (bool_decide (0 < limit)%Z) eqn:H0; simpl; [|done].
  destruct (bool_decide (limit < Z.of_nat (length pointers))%Z) eqn:H1; [|done].
  apply bool_decide_eq_true in H0, H1. lia.
Qed.

Lemma launch_raw_Returned pointers i n :
  i + n ≤ length pointers →
  launch_raw pointers i n = Returned (zip (seq i n) (take n (drop i pointers))).
Proof.
  revert i. induction n as [|n IH]; intros i Hle; [done|].
  destruct (lookup_lt_is_Some_2 pointers i) as [sig Hsig]; [lia|].
  cbn [launch_raw]. unfold at_index. rewrite Hsig. simpl.
  rewrite IH by lia. simpl.
  by rewrite (drop_S _ _ _ Hsig).
Qed.

Lemma non_nil_length pointers : length (non_nil pointers) ≤ length pointers.
Proof.
  unfold non_nil. induction pointers as [|[sig|] pointers IH]; cbn; [done| |];
    fold (omap id pointers); lia.
Qed.

(** A prefix without a nil entry is a prefix of the non-nil entries. *)
Lemma non_nil_prefix pointers n :
  n ≤ length pointers →
  Forall is_Some (take n pointers) →
  take n pointers = Some <$> take n (non_nil pointers)
  ∧ n ≤ length (non_nil pointers).
Proof.
  unfold non_nil. revert pointers.
  induction n as [|n IH]; intros pointers Hle Hsome.
  - split; [done|lia].
  - destruct pointers as [|p pointers]; [simpl in Hle; lia|].
    simpl in Hle. cbn [take] in Hsome.
    apply Forall_cons in Hsome as [[sig ->] Hsome].
    destruct (IH pointers) as [Htake Hlen]; [lia|done|].
    cbn. fold (omap id pointers). cbn [take]. rewrite Htake. split; [done|lia].
Qed.

Lemma processCount_non_nil pointers limit :
  Forall is_Some (take (processCount_raw pointers limit) pointers) →
  processCount (non_nil pointers) limit = processCount_raw pointers limit.
Proof.
  intros Hsome.
  destruct (non_nil_prefix pointers _ (processCount_raw_le pointers limit) Hsome)
    as [_ Hle].
  pose proof (non_nil_length pointers) as Hlen.
  revert Hle. unfold processCount, processCount_raw.
  destruct (decide (0 < limit)%Z) as [H0|H0].
  - rewrite (bool_decide_eq_true_2 _ H0). cbn [andb].
    repeat case_bool_decide; lia.
  - rewrite (bool_decide_eq_false_2 _ H0). cbn [andb]. lia.
Qed.

Lemma completed_fmap {A B} (f : A → B) (tasks : list A) order :
  completed (f <$> tasks) order = f <$> completed tasks order.
Proof.
  unfold completed. induction order as [|k order IH]; [done|].
  cbn. fold (omap (fun k => (f <$> tasks) !! k) order).
  fold (omap (fun k => tasks !! k) order).
  rewrite list_lookup_fmap, IH. by destruct (tasks !! k).
Qed.

(** Goroutines whose entries are not nil send what [fetchTask] gives. *)
Lemma run_goroutines_non_nil t (tasks : list (nat * rpc_TransactionSignature)) :
  run_goroutines t ((fun task => (fst task, Some (snd task))) <$> tasks)
  = Returned ((fun task => fetchTask t (fst task) (snd task)) <$> tasks).
Proof.
  induction tasks as [|task tasks IH]; [done|].
  cbn. by rewrite IH.
Qed.

(** A goroutine whose entry is nil panics, whenever it runs. *)
Lemma run_goroutines_nil t (tasks : list (nat * option rpc_TransactionSignature)) i :
  (i, None) ∈ tasks →
  run_goroutines t tasks = Panicked "invalid memory address or nil pointer dereference".
Proof.
  induction tasks as [|[k [sig|]] tasks IH]; intros Hin.
  - by apply elem_of_nil in Hin.
  - apply elem_of_cons in Hin as [Heq|Hin]; [congruence|].
    cbn. by rewrite (IH Hin).
  - reflexivity.
Qed.

(** The goroutines either all send or one of them panics. *)
Lemma run_goroutines_outcome t (tasks : list (nat * option rpc_TransactionSignature)) :
  (∃ results, run_goroutines t tasks = Returned results)
  ∨ run_goroutines t tasks = Panicked "invalid memory address or nil pointer dereference".
Proof.
  induction tasks as [|[k [sig|]] tasks IH].
  - left. by eexists.
  - cbn. destruct IH as [[results ->]| ->]; [left; by eexists|by right].
  - by right.
Qed.

Lemma launched_non_nil pointers n :
  n ≤ length pointers →
  Forall is_Some (take n pointers) →
  zip (seq 0 n) (take n pointers)
  = (fun task => (fst task, Some (snd task)))
      <$> zip (seq 0 n) (take n (non_nil pointers)).
Proof.
  intros Hle Hsome.
  destruct (non_nil_prefix pointers n Hle Hsome) as [-> _].
  generalize (seq 0 n) (take n (non_nil pointers)). clear.
  intros idxs. induction idxs as [|i idxs IH]; intros [|sig sigs]; try done.
  cbn. by rewrite IH.
Qed.

Lemma records_raw_checked c pointers n :
  n ≤ length pointers →
  Forall is_Some (take n pointers) →
  omap (record_raw c pointers) (seq 0 n)
  = omap (record (NewTransactionService (checked c)) (non_nil pointers)) (seq 0 n).
Proof.
  intros Hle Hsome. destruct (non_nil_prefix pointers n Hle Hsome) as [Htake _].
  apply omap_ext_elem_of. intros i Hi. apply elem_of_seq in Hi.
  assert (Hlookup : pointers !! i = Some <$> non_nil pointers !! i).
  { rewrite <- (lookup_take_lt pointers n i) by lia.
    rewrite Htake, list_lookup_fmap. by rewrite lookup_take_lt by lia. }
  unfold record_raw, record. rewrite Hlookup.
  by destruct (non_nil pointers !! i).
Qed.

Lemma FetchAccountTransactions_raw_failure c account limit now order e :
  Raw_GetSignaturesForAddress c account = inr e →
  FetchAccountTransactions_raw c account limit now order
  = Returned (None, Some ("failed to get signatures for account "
                          +:+ PublicKey_String account +:+ ": " +:+ e)).
Proof. intros Hlist. unfold FetchAccountTransactions_raw. by rewrite Hlist. Qed.

(** When no entry that is read is nil, the call is the call of the
    client read through its non-nil entries. *)
Lemma FetchAccountTransactions_raw_checked c account limit now order :
  (∀ pointers, Raw_GetSignaturesForAddress c account = inl pointers →
               Forall is_Some (take (processCount_raw pointers limit) pointers)) →
  FetchAccountTransactions_raw c account limit now order
  = FetchAccountTransactions (NewTransactionService (checked c)) account limit now order.
Proof.
  intros Hsome. unfold FetchAccountTransactions_raw, FetchAccountTransactions.
  cbn [client NewTransactionService checked GetSignaturesForAddress].
  destruct (Raw_GetSignaturesForAddress c account) as [pointers|e]; [|done].
  specialize (Hsome pointers eq_refl).
  pose proof (processCount_raw_le pointers limit) as Hle.
  rewrite (processCount_non_nil _ _ Hsome).
  pose proof (non_nil_prefix pointers _ Hle Hsome) as [_ Hle'].
  rewrite launch_raw_Returned, launch_Returned by done.
  change (drop 0 pointers) with pointers.
  change (drop 0 (non_nil pointers)) with (non_nil pointers).
  rewrite (launched_non_nil _ _ Hle Hsome).
  cbn [mbind outcome_bind].
  by rewrite completed_fmap, run_goroutines_non_nil.
Qed.

(** A nil entry among those read makes the call panic, in every
    completion order. *)
Lemma FetchAccountTransactions_raw_Panicked c account limit now order pointers i :
  Raw_GetSignaturesForAddress c account = inl pointers →
  order ≡ₚ seq 0 (processCount_raw pointers limit) →
  i < processCount_raw pointers limit →
  pointers !! i = Some None →
  FetchAccountTransactions_raw c account limit now order
  = Panicked "invalid memory address or nil pointer dereference".
Proof.
  intros Hlist Horder Hi Hnil. unfold FetchAccountTransactions_raw. rewrite Hlist.
  pose proof (processCount_raw_le pointers limit) as Hle.
  rewrite launch_raw_Returned by done.
  change (drop 0 pointers) with pointers.
  set (n := processCount_raw pointers limit) in *.
  set (tasks := zip (seq 0 n) (take n pointers)).
  assert (Hlen : length tasks = n).
  { unfold tasks. rewrite length_zip, length_seq, length_take. lia. }
  assert (Hin : (i, None) ∈ completed tasks order).
  { rewrite completed_Permutation by by rewrite Hlen.
    apply list_elem_of_lookup. exists i. apply lookup_zip_Some. split.
    - by apply lookup_seq.
    - by rewrite lookup_take_lt. }
  cbn [mbind outcome_bind].
  by rewrite (run_goroutines_nil _ _ _ Hin).
Qed.

(** C4, amended. The call returns an error exactly when the signature
    listing fails: then it returns a nil batch and an error whose message
    contains the account.  When the listing succeeds and none of the
    entries that the call reads (the first [processCount] of them) is a
    nil pointer, it returns a batch and a nil error, whatever the tasks
    do and in whatever order they complete. *)
Theorem FetchAccountTransactions_raw_fails_iff_listing_fails
    c account limit now order :
  ((∃ e, Raw_GetSignaturesForAddress c account = inr e) ↔
   (∃ batch msg, FetchAccountTransactions_raw c account limit now order
                 = Returned (batch, Some msg)))
  ∧ (∀ e, Raw_GetSignaturesForAddress c account = inr e →
          ∃ msg, FetchAccountTransactions_raw c account limit now order
                 = Returned (None, Some msg)
                 ∧ str_contains msg (PublicKey_String account))
  ∧ (∀ pointers, Raw_GetSignaturesForAddress c account = inl pointers →
          Forall is_Some (take (processCount_raw pointers limit) pointers) →
          ∃ batch, FetchAccountTransactions_raw c account limit now order
                   = Returned (Some batch, None)).
Proof.
  split_and!.
  - split.
    + intros [e He]. eexists _, _. by apply FetchAccountTransactions_raw_failure.
    + intros (batch & msg & Hmsg).
      destruct (Raw_GetSignaturesForAddress c account) as [pointers|e] eqn:Hlist;
        [|by exists e].
      exfalso. revert Hmsg. unfold FetchAccountTransactions_raw. rewrite Hlist.
      rewrite launch_raw_Returned by apply processCount_raw_le.
      cbn [mbind outcome_bind].
      by destruct (run_goroutines_outcome (NewTransactionService (checked c))
                     (completed (zip (seq 0 (processCount_raw pointers limit))
                                     (take (processCount_raw pointers limit)
                                           (drop 0 pointers))) order))
        as [[results ->]| ->].
  - intros e He. eexists. split; [by apply FetchAccountTransactions_raw_failure|].
    apply str_contains_intro.
  - intros pointers Hlist Hsome.
    rewrite FetchAccountTransactions_raw_checked.
    2:{ intros pointers' Hlist'. congruence. }
    destruct (FetchAccountTransactions_batch (NewTransactionService (checked c))
                account limit now order (non_nil pointers))
      as [transactions Hbatch].
    { cbn. by rewrite Hlist. }
    by eexists.
Qed.

End PointerFacts.

(** ** The WebSocket address *)

Lemma GetWSURL_https (env : environ) (httpURL : string) :
  Getenv env "WS_URL" = "" →
  Getenv env "RPC_URL" = httpURL →
  8 ≤ String.length httpURL →
  str_take 8 httpURL = "https://" →
  GetWSURL env = Returned ("wss://" +:+ str_drop 8 httpURL).
Proof.
  intros Hws Hrpc Hlen Htake. unfold GetWSURL. rewrite Hws, Hrpc.
  rewrite (bool_decide_eq_true_2 ("" = "")) by done. cbn [negb].
  rewrite decide_False by (intros ->; simpl in Hlen; lia).
  by rewrite (bool_decide_eq_true_2 _ Hlen), (bool_decide_eq_true_2 _ Htake).
Qed.

Lemma GetWSURL_http (env : environ) (httpURL : string) :
  Getenv env "WS_URL" = "" →
  Getenv env "RPC_URL" = httpURL →
  7 ≤ String.length httpURL →
  str_take 8 httpURL ≠ "https://" →
  str_take 7 httpURL = "http://" →
  GetWSURL env = Returned ("ws://" +:+ str_drop 7 httpURL).
Proof.
  intros Hws Hrpc Hlen Hnot Htake. unfold GetWSURL. rewrite Hws, Hrpc.
  rewrite (bool_decide_eq_true_2 ("" = "")) by done. cbn [negb].
  rewrite decide_False by (intros ->; simpl in Hlen; lia).
  rewrite (bool_decide_eq_false_2 _ Hnot), andb_false_r.
  by rewrite (bool_decide_eq_true_2 _ Hlen), (bool_decide_eq_true_2 _ Htake).
Qed.

(** C9. When [WS_URL] is not set, [GetWSURL] replaces the scheme of
    [RPC_URL]: [https://] by [wss://] and [http://] by [ws://], and leaves
    what follows the scheme as it is. *)
Theorem GetWSURL_scheme_substitution (env : environ) (rest : string) :
  Getenv env "WS_URL" = "" →
  (Getenv env "RPC_URL" = "https://" +:+ rest →
   GetWSURL env = Returned ("wss://" +:+ rest))
  ∧ (Getenv env "RPC_URL" = "http://" +:+ rest →
     GetWSURL env = Returned ("ws://" +:+ rest)).
Proof.
  intros Hws. split; intros Hrpc.
  - assert (Hdrop : str_drop 8 ("https://" +:+ rest) = rest)
      by apply (str_drop_prefix "https://" rest).
    rewrite (GetWSURL_https env _ Hws Hrpc).
    + by rewrite Hdrop.
    + rewrite str_length_app. simpl. lia.
    + apply (str_take_prefix "https://" rest).
  - assert (Hdrop : str_drop 7 ("http://" +:+ rest) = rest)
      by apply (str_drop_prefix "http://" rest).
    rewrite (GetWSURL_http env _ Hws Hrpc).
    + by rewrite Hdrop.
    + rewrite str_length_app. simpl. lia.
    + unfold str_take. simpl. congruence.
    + apply (str_take_prefix "http://" rest).
Qed.

(** ** The theorems at work on the demo instance *)

Ltac by_computation := refine (bool_decide_unpack _ _); vm_compute; exact I.

Lemma FetchAccountTransactions_input_order_witness :
  @GetSignaturesForAddress demo (client demo_service) "wallet" = inl demo_history
  ∧ [3; 0; 4; 2; 1] ≡ₚ seq 0 (processCount demo_history 0)
  ∧ ∃ batch idxs,
      @FetchAccountTransactions demo demo_service "wallet" 0 42 [3; 0; 4; 2; 1]
      = Returned (Some batch, None)
      ∧ StronglySorted lt idxs
      ∧ (∀ i, i ∈ idxs ↔
              i < processCount demo_history 0 ∧ is_Some (record demo_service demo_history i))
      ∧ Forall2 (fun i txInfo => record demo_service demo_history i = Some txInfo)
                idxs (elems (Transactions batch)).
Proof.
  assert (Hlist : @GetSignaturesForAddress demo (client demo_service) "wallet"
                  = inl demo_history) by reflexivity.
  assert (Horder : [3; 0; 4; 2; 1] ≡ₚ seq 0 (processCount demo_history 0))
    by by_computation.
  split_and!; [done|done|].
  exact (@FetchAccountTransactions_input_order demo demo_service "wallet" 0%Z 42%Z
           [3; 0; 4; 2; 1] demo_history Hlist Horder).
Defined.

Lemma FetchAccountTransactions_failed_fetch_omitted_witness :
  @GetSignaturesForAddress demo (client demo_service) "trio" = inl (take 3 demo_history)
  ∧ [2; 0; 1] ≡ₚ seq 0 (processCount (take 3 demo_history) 3)
  ∧ 1 < processCount (take 3 demo_history) 3
  ∧ take 3 demo_history !! 1 = Some (@Build_rpc_TransactionSignature demo "S1" 200%N None)
  ∧ @GetTransaction demo (client demo_service) "S1" = inr "not found"
  ∧ (∃ batch idxs,
      @FetchAccountTransactions demo demo_service "trio" 3 42 [2; 0; 1]
      = Returned (Some batch, None)
      ∧ (1 ∉ idxs)
      ∧ StronglySorted lt idxs
      ∧ (∀ j, j ≠ 1 → j < processCount (take 3 demo_history) 3 →
              is_Some (record demo_service (take 3 demo_history) j) → j ∈ idxs)
      ∧ Forall2 (fun j txInfo => record demo_service (take 3 demo_history) j = Some txInfo)
                idxs (elems (Transactions batch))
      ∧ elems (Transactions batch)
        = omap (record demo_service (take 3 demo_history))
               (seq 0 1 ++ seq 2 (processCount (take 3 demo_history) 3 - 2)))
  ∧ @FetchAccountTransactions demo demo_service "trio" 3 42 [2; 0; 1]
    = Returned
        (Some (@Build_AccountTransactions demo "trio"
                 (SliceOf
                    [ @Build_TransactionInfo demo "S0" 300%N (Some 1700000300%Z)
                        (Some 5000%N) (Some "tx:S0");
                      @Build_TransactionInfo demo "S2" 100%N (Some 1700000100%Z)
                        (Some 5000%N) (Some "tx:S2") ])
                 42%Z),
         None).
Proof.
  assert (Hlist : @GetSignaturesForAddress demo (client demo_service) "trio"
                  = inl (take 3 demo_history)) by reflexivity.
  assert (Horder : [2; 0; 1] ≡ₚ seq 0 (processCount (take 3 demo_history) 3))
    by by_computation.
  assert (Hi : 1 < processCount (take 3 demo_history) 3) by (vm_compute; lia).
  assert (Hsig : take 3 demo_history !! 1
                 = Some (@Build_rpc_TransactionSignature demo "S1" 200%N None))
    by reflexivity.
  assert (Hget : @GetTransaction demo (client demo_service) "S1" = inr "not found")
    by reflexivity.
  split_and!; [done|done|done|done|done| |reflexivity].
  exact (@FetchAccountTransactions_failed_fetch_omitted demo demo_service "trio" 3%Z 42%Z
           [2; 0; 1] (take 3 demo_history) 1 _ "not found" Hlist Horder Hi Hsig Hget).
Defined.

Lemma FetchAccountTransactions_indices_distinct_in_range_witness :
  @GetSignaturesForAddress demo (client demo_service) "wallet" = inl demo_history
  ∧ [1; 0] ≡ₚ seq 0 (processCount demo_history 2)
  ∧ ∃ batch idxs,
      @FetchAccountTransactions demo demo_service "wallet" 2 42 [1; 0]
      = Returned (Some batch, None)
      ∧ NoDup idxs
      ∧ Forall (fun i => i < processCount demo_history 2) idxs
      ∧ Forall2 (fun i txInfo => record demo_service demo_history i = Some txInfo)
                idxs (elems (Transactions batch))
      ∧ len (Transactions batch) ≤ processCount demo_history 2.
Proof.
  assert (Hlist : @GetSignaturesForAddress demo (client demo_service) "wallet"
                  = inl demo_history) by reflexivity.
  assert (Horder : [1; 0] ≡ₚ seq 0 (processCount demo_history 2)) by by_computation.
  split_and!; [done|done|].
  exact (@FetchAccountTransactions_indices_distinct_in_range demo demo_service "wallet"
           2%Z 42%Z [1; 0] demo_history Hlist Horder).
Defined.

Lemma FetchAccountTransactions_decode_failure_kept_witness :
  @GetSignaturesForAddress demo (client demo_service) "wallet" = inl demo_history
  ∧ [4; 3; 2; 1; 0] ≡ₚ seq 0 (processCount demo_history 0)
  ∧ 3 < processCount demo_history 0
  ∧ demo_history !! 3
    = Some (@Build_rpc_TransactionSignature demo "S3" 90%N (Some 1700000090%Z))
  ∧ @GetTransaction demo (client demo_service) "S3"
    = inl (@Build_rpc_GetTransactionResult demo (Some 5000%N) (Some ""))
  ∧ snd (@Envelope_GetTransaction demo "") = Some "unexpected EOF"
  ∧ ∃ batch,
      @FetchAccountTransactions demo demo_service "wallet" 0 42 [4; 3; 2; 1; 0]
      = Returned (Some batch, None)
      ∧ elems (Transactions batch) !! 2
        = Some (@Build_TransactionInfo demo "S3" 90%N (Some 1700000090%Z)
                  (Some 5000%N) None).
Proof.
  assert (Hlist : @GetSignaturesForAddress demo (client demo_service) "wallet"
                  = inl demo_history) by reflexivity.
  assert (Horder : [4; 3; 2; 1; 0] ≡ₚ seq 0 (processCount demo_history 0))
    by by_computation.
  assert (Hi : 3 < processCount demo_history 0) by (vm_compute; lia).
  assert (Hsig : demo_history !! 3
                 = Some (@Build_rpc_TransactionSignature demo "S3" 90%N
                           (Some 1700000090%Z))) by reflexivity.
  assert (Hget : @GetTransaction demo (client demo_service) "S3"
                 = inl (@Build_rpc_GetTransactionResult demo (Some 5000%N) (Some "")))
    by reflexivity.
  assert (Hdecode : snd (@Envelope_GetTransaction demo "") = Some "unexpected EOF")
    by reflexivity.
  split_and!; [done|done|done|done|done|done|].
  exact (@FetchAccountTransactions_decode_failure_kept demo demo_service "wallet" 0%Z 42%Z
           [4; 3; 2; 1; 0] demo_history 3 _ _ "" "unexpected EOF"
           Hlist Horder Hi Hsig Hget eq_refl Hdecode).
Defined.

Lemma FetchAccountTransactions_empty_witness :
  @GetSignaturesForAddress demo (client demo_service) "empty" = inl []
  ∧ @FetchAccountTransactions demo demo_service "empty" 20 42 []
    = Returned (Some (@Build_AccountTransactions demo "empty" (SliceOf []) 42%Z), None).
Proof.
  assert (Hlist : @GetSignaturesForAddress demo (client demo_service) "empty" = inl [])
    by reflexivity.
  split; [done|].
  exact (proj1 (@FetchAccountTransactions_empty demo demo_service "empty" 20%Z 42%Z []
                  Hlist)).
Defined.

Lemma FetchAccountTransactions_deterministic_witness :
  @completion_order demo demo_service "wallet" 3 [2; 0; 1]
  ∧ @completion_order demo demo_service "wallet" 3 [1; 2; 0]
  ∧ without_timestamp (@FetchAccountTransactions demo demo_service "wallet" 3 42 [2; 0; 1])
    = without_timestamp (@FetchAccountTransactions demo demo_service "wallet" 3 77 [1; 2; 0]).
Proof.
  assert (Horder1 : @completion_order demo demo_service "wallet" 3 [2; 0; 1]).
  { intros signatures Hlist. vm_compute in Hlist. injection Hlist as <-. by_computation. }
  assert (Horder2 : @completion_order demo demo_service "wallet" 3 [1; 2; 0]).
  { intros signatures Hlist. vm_compute in Hlist. injection Hlist as <-. by_computation. }
  split_and!; [done|done|].
  exact (@FetchAccountTransactions_deterministic demo demo_service "wallet" 3%Z 42%Z 77%Z
           [2; 0; 1] [1; 2; 0] Horder1 Horder2).
Defined.

Lemma GetWSURL_scheme_substitution_witness :
  Getenv demo_env "WS_URL" = ""
  ∧ Getenv demo_env "RPC_URL" = "https://" +:+ "rpc.example"
  ∧ GetWSURL demo_env = Returned ("wss://" +:+ "rpc.example")
  ∧ Getenv (<["RPC_URL" := "http://localhost:8899"]> demo_env) "WS_URL" = ""
  ∧ Getenv (<["RPC_URL" := "http://localhost:8899"]> demo_env) "RPC_URL"
    = "http://" +:+ "localhost:8899"
  ∧ GetWSURL (<["RPC_URL" := "http://localhost:8899"]> demo_env)
    = Returned ("ws://" +:+ "localhost:8899").
Proof.
  assert (Hws : Getenv demo_env "WS_URL" = "") by reflexivity.
  assert (Hrpc : Getenv demo_env "RPC_URL" = "https://" +:+ "rpc.example") by reflexivity.
  assert (Hws' : Getenv (<["RPC_URL" := "http://localhost:8899"]> demo_env) "WS_URL" = "")
    by reflexivity.
  assert (Hrpc' : Getenv (<["RPC_URL" := "http://localhost:8899"]> demo_env) "RPC_URL"
                  = "http://" +:+ "localhost:8899") by reflexivity.
  split_and!; [done|done| |done|done|].
  - exact (proj1 (GetWSURL_scheme_substitution demo_env "rpc.example" Hws) Hrpc).
  - exact (proj2 (GetWSURL_scheme_substitution _ "localhost:8899" Hws') Hrpc').
Defined.

Lemma main_nil_dereference_witness :
  GetRPCURL demo_env = Returned "https://rpc.example"
  ∧ GetWalletAddress demo_env = Returned "offline"
  ∧ @GetSignaturesForAddress demo demo_client
      (fst (@GetAccountFromPublicKey demo "offline"))
    = inr "rpc: connection refused"
  ∧ (∃ msg, @FetchAccountTransactions demo (NewTransactionService demo_client)
              (fst (@GetAccountFromPublicKey demo "offline")) 20 42 []
            = Returned (None, Some msg))
  ∧ @main demo (fun _ => demo_client) 20 demo_env 42 []
    = Panicked "invalid memory address or nil pointer dereference".
Proof.
  assert (Hurl : GetRPCURL demo_env = Returned "https://rpc.example") by reflexivity.
  assert (Hwallet : GetWalletAddress demo_env = Returned "offline") by reflexivity.
  assert (Hlist : @GetSignaturesForAddress demo demo_client
                    (fst (@GetAccountFromPublicKey demo "offline"))
                  = inr "rpc: connection refused") by reflexivity.
  split_and!; [done|done|done|..];
    apply (@main_nil_dereference demo (fun _ => demo_client) 20%Z demo_env 42%Z []
             "https://rpc.example" "offline" "rpc: connection refused" Hurl Hwallet Hlist).
Defined.

Lemma processCount_launch_witness :
  length demo_history = 5
  ∧ processCount demo_history 2 = 2
  ∧ ∃ tasks,
      launch demo_history 0 (processCount demo_history 2) = Returned tasks
      ∧ length tasks = 2
      ∧ tasks.*1 = [0; 1].
Proof.
  assert (Hlen : length demo_history = 5) by reflexivity.
  split; [done|].
  exact (proj2 (proj2 (@processCount_launch demo demo_history 2%Z)) Hlen eq_refl).
Defined.

(** C4 as the specification states it fails: the listing of the wallet
    succeeds, its second entry is nil, and with a limit of two the call
    returns neither a batch nor an error, in a completion order of its
    two goroutines. *)
Lemma FetchAccountTransactions_nil_entry_counterexample :
  @Raw_GetSignaturesForAddress demo demo_raw_client "wallet" = inl demo_raw_history
  ∧ [1; 0] ≡ₚ seq 0 (processCount_raw demo_raw_history 2)
  ∧ @FetchAccountTransactions_raw demo demo_raw_client "wallet" 2 42 [1; 0]
    = Panicked "invalid memory address or nil pointer dereference"
  ∧ ¬ ((∃ e, @Raw_GetSignaturesForAddress demo demo_raw_client "wallet" = inr e)
       ∨ (∃ batch, @FetchAccountTransactions_raw demo demo_raw_client "wallet" 2 42 [1; 0]
                   = Returned (Some batch, None))).
Proof.
  assert (Hrun : @FetchAccountTransactions_raw demo demo_raw_client "wallet" 2 42 [1; 0]
                 = Panicked "invalid memory address or nil pointer dereference")
    by reflexivity.
  split_and!; [reflexivity|by_computation|exact Hrun|].
  intros [[e He]|[batch Hbatch]].
  - discriminate He.
  - rewrite Hrun in Hbatch. discriminate Hbatch.
Qed.

Lemma FetchAccountTransactions_raw_fails_iff_listing_fails_witness :
  @Raw_GetSignaturesForAddress demo demo_raw_client "offline"
  = inr "rpc: connection refused"
  ∧ (∃ msg, @FetchAccountTransactions_raw demo demo_raw_client "offline" 1 42 []
            = Returned (None, Some msg)
            ∧ str_contains msg "offline")
  ∧ @Raw_GetSignaturesForAddress demo demo_raw_client "wallet" = inl demo_raw_history
  ∧ Forall is_Some (take (processCount_raw demo_raw_history 1) demo_raw_history)
  ∧ (∃ batch, @FetchAccountTransactions_raw demo demo_raw_client "wallet" 1 42 [0]
              = Returned (Some batch, None)).
Proof.
  assert (Hfail : @Raw_GetSignaturesForAddress demo demo_raw_client "offline"
                  = inr "rpc: connection refused") by reflexivity.
  assert (Hlist : @Raw_GetSignaturesForAddress demo demo_raw_client "wallet"
                  = inl demo_raw_history) by reflexivity.
  assert (Hsome : Forall is_Some
                    (take (processCount_raw demo_raw_history 1) demo_raw_history))
    by by_computation.
  split_and!; [done| |done|done|].
  - exact (proj1 (proj2 (@FetchAccountTransactions_raw_fails_iff_listing_fails demo
                           demo_raw_client "offline" 1%Z 42%Z []))
             "rpc: connection refused" Hfail).
  - exact (proj2 (proj2 (@FetchAccountTransactions_raw_fails_iff_listing_fails demo
                           demo_raw_client "wallet" 1%Z 42%Z [0]))
             demo_raw_history Hlist Hsome).
Defined.

(** * Further properties of the code *)

(** ** The fan-out: blocking, progress and termination *)

Section FanOutFacts.

Context `{SolanaGo}.
Implicit Types (t : TransactionService) (signatures : list rpc_TransactionSignature).
Implicit Types (p : pool) (tasks : list (nat * rpc_TransactionSignature)).

Lemma step_buffered_step t capacity p p' :
  step_buffered t capacity p p' → step t p p'.
Proof. destruct 1; constructor. Qed.

Lemma rtc_step_buffered_step t capacity p p' :
  rtc (step_buffered t capacity) p p' → rtc (step t) p p'.
Proof.
  induction 1 as [|p p' p'' Hstep _ IH]; [done|].
  eapply rtc_l; [by eapply step_buffered_step|done].
Qed.

Lemma step_work_left t p p' : step t p p' → S (work_left p') = work_left p.
Proof.
  destruct 1 as [before task after chan m|tasks result chan m];
    unfold work_left; simpl; rewrite ?length_app; simpl; lia.
Qed.

Lemma step_occupancy t p p' :
  step t p p' →
  length (running p') + length (resultChan p') ≤ length (running p) + length (resultChan p).
Proof.
  destruct 1 as [before task after chan m|tasks result chan m];
    simpl; rewrite ?length_app; simpl; lia.
Qed.

Lemma rtc_step_occupancy t p p' :
  rtc (step t) p p' →
  length (running p') + length (resultChan p') ≤ length (running p) + length (resultChan p).
Proof.
  induction 1 as [|p p' p'' Hstep _ IH]; [done|].
  apply (step_occupancy t) in Hstep. lia.
Qed.

(** X1. No goroutine ever blocks on its send: in every state the fan-out can
    reach, as long as a goroutine is running the channel holds fewer
    results than its capacity, the number of goroutines launched. *)
Theorem fan_out_send_never_blocks t tasks p :
  rtc (step_buffered t (length tasks)) (launched tasks) p →
  running p ≠ [] →
  length (resultChan p) < length tasks.
Proof.
  intros Hrun Hrunning.
  apply rtc_step_buffered_step, rtc_step_occupancy in Hrun. simpl in Hrun.
  destruct (running p) as [|task rest]; [done|]. simpl in Hrun. lia.
Qed.

(** X2. The fan-out never deadlocks: a state it can reach in which a
    goroutine is running or a result is buffered has a next step. *)
Theorem fan_out_progress t tasks p :
  rtc (step_buffered t (length tasks)) (launched tasks) p →
  ¬ joined p →
  ∃ p', step_buffered t (length tasks) p p'.
Proof.
  intros Hrun Hnot.
  pose proof (fan_out_send_never_blocks t tasks p Hrun) as Hroom.
  destruct p as [tasks' chan m]. simpl in *.
  destruct chan as [|result chan].
  - destruct tasks' as [|task rest].
    + by destruct Hnot.
    + eexists. apply (buffered_send t (length tasks) [] task rest [] m).
      by apply Hroom.
  - eexists. apply buffered_receive.
Qed.

(** X3. The fan-out terminates: a run of [k] steps from the launch of [n]
    goroutines has [k ≤ 2 n], and it has joined exactly when [k = 2 n]. *)
Theorem fan_out_terminates t tasks k p :
  nsteps (step_buffered t (length tasks)) k (launched tasks) p →
  k ≤ 2 * length tasks ∧ (joined p ↔ k = 2 * length tasks).
Proof.
  intros Hrun.
  assert (Hwork : work_left p + k = work_left (launched tasks)).
  { induction Hrun as [|k p p' p'' Hstep _ IH]; [lia|].
    apply step_buffered_step, step_work_left in Hstep. lia. }
  unfold work_left at 2 in Hwork. simpl in Hwork.
  split; [lia|].
  unfold joined. unfold work_left in Hwork.
  rewrite <- !length_zero_iff_nil. lia.
Qed.

(** X4. Whatever the interleaving of sends and receives, when the fan-out has
    joined the map holds, for each index below [processCount], the record
    of the task of that index if its fetch succeeded, and nothing else. *)
Theorem fan_out_result t signatures limit p i :
  rtc (step_buffered t (processCount signatures limit))
      (launched (zip (seq 0 (processCount signatures limit))
                     (take (processCount signatures limit) signatures))) p →
  joined p →
  resultMap p !! i
  = if decide (i < processCount signatures limit) then record t signatures i else None.
Proof.
  intros Hrun Hjoined.
  pose proof (processCount_le signatures limit) as Hle.
  apply rtc_step_buffered_step in Hrun.
  rewrite (goroutines_joined t signatures limit (seq 0 (processCount signatures limit)))
    by done.
  set (n := processCount signatures limit) in *.
  assert (Hlen : length (zip (seq 0 n) (take n signatures)) = n).
  { rewrite <- (length_fmap fst), launch_fst by done. apply length_seq. }
  assert (Hcompleted : completed (zip (seq 0 n) (take n signatures)) (seq 0 n)
                       = zip (seq 0 n) (take n signatures)).
  { pose proof (omap_lookup_seq (zip (seq 0 n) (take n signatures))) as Hall.
    by rewrite Hlen in Hall. }
  rewrite Hcompleted. by apply collect_launched.
Qed.

End FanOutFacts.

(** ** The pipeline: complete success, complete failure, the limit *)

Lemma omap_all_Some {A B} (f : A → option B) (l : list A) :
  (∀ x, x ∈ l → is_Some (f x)) →
  length (omap f l) = length l ∧ ∀ i, omap f l !! i = l !! i ≫= f.
Proof.
  induction l as [|x l IH]; intros Hall; [done|].
  destruct (Hall x) as [y Hy]; [left|].
  destruct IH as [IHlen IHlook]; [intros z Hz; apply Hall; by right|].
  cbn. rewrite Hy. fold (omap f l). split; [simpl; by rewrite IHlen|].
  intros [|i]; simpl; [done|]. apply IHlook.
Qed.

Lemma omap_all_None {A B} (f : A → option B) (l : list A) :
  (∀ x, x ∈ l → f x = None) → omap f l = [].
Proof.
  induction l as [|x l IH]; intros Hall; [done|].
  cbn. rewrite (Hall x) by left. fold (omap f l).
  apply IH. intros z Hz. apply Hall. by right.
Qed.

Section PipelineMore.

Context `{SolanaGo}.
Implicit Types (t : TransactionService) (signatures : list rpc_TransactionSignature).
Implicit Types (limit now : Z) (order : list nat).

Lemma record_success t signatures i sig txResult :
  signatures !! i = Some sig →
  GetTransaction (client t) (sig_Signature sig) = inl txResult →
  record t signatures i
  = Some {| Signature := Signature_String (sig_Signature sig);
            Slot := sig_Slot sig;
            BlockTime := sig_BlockTime sig;
            Meta := res_Meta txResult;
            Transaction :=
              match res_Transaction txResult with
              | Some envelope =>
                  match Envelope_GetTransaction envelope with
                  | (parsedTx, None) => parsedTx
                  | (_, Some _) => None
                  end
              | None => None
              end |}.
Proof.
  intros Hsig Hget. unfold record. rewrite Hsig. simpl.
  unfold fetchTask. rewrite Hget. simpl.
  destruct (res_Transaction txResult) as [envelope|]; simpl.
  - destruct (Envelope_GetTransaction envelope) as [parsedTx [decodeErr|]];
      simpl; by destruct (sig_BlockTime sig).
  - by destruct (sig_BlockTime sig).
Qed.

(** X5. When every fetch of the first [processCount] signatures succeeds, the
    batch has exactly [processCount] records, and the record at position
    [i] carries the signature, the slot and the block time of the entry
    at position [i] of the listing. *)
Theorem FetchAccountTransactions_all_succeed
    t account limit now order signatures :
  GetSignaturesForAddress (client t) account = inl signatures →
  order ≡ₚ seq 0 (processCount signatures limit) →
  (∀ i sig, i < processCount signatures limit → signatures !! i = Some sig →
            ∃ txResult, GetTransaction (client t) (sig_Signature sig) = inl txResult) →
  ∃ batch,
    FetchAccountTransactions t account limit now order = Returned (Some batch, None)
    ∧ len (Transactions batch) = processCount signatures limit
    ∧ ∀ i sig, i < processCount signatures limit → signatures !! i = Some sig →
        ∃ txInfo, elems (Transactions batch) !! i = Some txInfo
                  ∧ Signature txInfo = Signature_String (sig_Signature sig)
                  ∧ Slot txInfo = sig_Slot sig
                  ∧ BlockTime txInfo = sig_BlockTime sig.
Proof.
  intros Hlist Horder Hall.
  pose proof (processCount_le signatures limit) as Hle.
  eexists. split; [by apply FetchAccountTransactions_Returned|].
  destruct (omap_all_Some (record t signatures) (seq 0 (processCount signatures limit)))
    as [Hlen Hlook].
  { intros i Hi. apply elem_of_seq in Hi.
    destruct (lookup_lt_is_Some_2 signatures i) as [sig Hsig]; [lia|].
    destruct (Hall i sig) as [txResult Hget]; [lia|done|].
    rewrite (record_success _ _ _ _ _ Hsig Hget). by eexists. }
  split.
  - unfold len. simpl. by rewrite Hlen, length_seq.
  - intros i sig Hi Hsig. simpl.
    destruct (Hall i sig Hi Hsig) as [txResult Hget].
    rewrite Hlook, lookup_seq_lt by done. simpl.
    rewrite (record_success _ _ _ _ _ Hsig Hget). by eexists.
Qed.

(** X6. When every fetch of the first [processCount] signatures fails, the
    call still returns no error: the batch is empty and not nil. *)
Theorem FetchAccountTransactions_all_fail
    t account limit now order signatures :
  GetSignaturesForAddress (client t) account = inl signatures →
  order ≡ₚ seq 0 (processCount signatures limit) →
  (∀ i sig, i < processCount signatures limit → signatures !! i = Some sig →
            ∃ e, GetTransaction (client t) (sig_Signature sig) = inr e) →
  FetchAccountTransactions t account limit now order
  = Returned (Some {| Account := account; Transactions := SliceOf [];
                      LastFetched := now |}, None).
Proof.
  intros Hlist Horder Hall.
  pose proof (processCount_le signatures limit) as Hle.
  rewrite (FetchAccountTransactions_Returned _ _ _ _ _ signatures) by done.
  rewrite omap_all_None; [done|].
  intros i Hi. apply elem_of_seq in Hi.
  destruct (lookup_lt_is_Some_2 signatures i) as [sig Hsig]; [lia|].
  destruct (Hall i sig) as [e Hget]; [lia|done|].
  by eapply record_failure.
Qed.

(** X7. The batch depends on the first [processCount] entries of the
    listing and on the fetches of their signatures only: two upstreams
    that agree on these give the same batch, whatever they answer for
    the entries beyond the limit. *)
Theorem FetchAccountTransactions_only_leading
    t1 t2 account limit now order signatures1 signatures2 :
  GetSignaturesForAddress (client t1) account = inl signatures1 →
  GetSignaturesForAddress (client t2) account = inl signatures2 →
  processCount signatures1 limit = processCount signatures2 limit →
  take (processCount signatures1 limit) signatures1
  = take (processCount signatures1 limit) signatures2 →
  (∀ sig, sig ∈ take (processCount signatures1 limit) signatures1 →
          GetTransaction (client t1) (sig_Signature sig)
          = GetTransaction (client t2) (sig_Signature sig)) →
  order ≡ₚ seq 0 (processCount signatures1 limit) →
  FetchAccountTransactions t1 account limit now order
  = FetchAccountTransactions t2 account limit now order.
Proof.
  intros Hlist1 Hlist2 Hcount Htake Hget Horder.
  rewrite (FetchAccountTransactions_Returned t1 _ _ _ _ signatures1) by done.
  rewrite (FetchAccountTransactions_Returned t2 _ _ _ _ signatures2);
    [|done|by rewrite <- Hcount].
  rewrite <- Hcount. do 5 f_equal.
  apply omap_ext_elem_of. intros i Hi. apply elem_of_seq in Hi.
  assert (Hsame : signatures1 !! i = signatures2 !! i).
  { rewrite <- (lookup_take_lt signatures1 (processCount signatures1 limit)) by lia.
    rewrite <- (lookup_take_lt signatures2 (processCount signatures1 limit)) by lia.
    by rewrite Htake. }
  unfold record. rewrite <- Hsame.
  destruct (signatures1 !! i) as [sig|] eqn:Hsig; [|done]. simpl.
  assert (Hin : sig ∈ take (processCount signatures1 limit) signatures1).
  { apply list_elem_of_lookup. exists i. rewrite lookup_take_lt by lia. done. }
  unfold fetchTask. by rewrite (Hget sig Hin).
Qed.

(** X8. The record of a fetched transaction has its decoded transaction
    exactly when the answer carries a payload that decodes without
    error; the other fields come from the listing entry and the answer. *)
Theorem FetchAccountTransactions_record_fields
    t account limit now order signatures i sig txResult :
  GetSignaturesForAddress (client t) account = inl signatures →
  order ≡ₚ seq 0 (processCount signatures limit) →
  i < processCount signatures limit →
  signatures !! i = Some sig →
  GetTransaction (client t) (sig_Signature sig) = inl txResult →
  ∃ batch txInfo,
    FetchAccountTransactions t account limit now order = Returned (Some batch, None)
    ∧ elems (Transactions batch) !! length (omap (record t signatures) (seq 0 i))
      = Some txInfo
    ∧ Signature txInfo = Signature_String (sig_Signature sig)
    ∧ Meta txInfo = res_Meta txResult
    ∧ (∀ parsedTx, Transaction txInfo = Some parsedTx ↔
         ∃ envelope, res_Transaction txResult = Some envelope
                     ∧ Envelope_GetTransaction envelope = (Some parsedTx, None)).
Proof.
  intros Hlist Horder Hi Hsig Hget.
  eexists _, _. split; [by apply FetchAccountTransactions_Returned|].
  simpl. split_and!.
  - replace (processCount signatures limit)
      with (i + S (processCount signatures limit - S i)) by lia.
    rewrite seq_app, omap_app. cbn [seq].
    rewrite lookup_app_r by done. rewrite Nat.sub_diag.
    cbn. by rewrite (record_success _ _ _ _ _ Hsig Hget).
  - done.
  - done.
  - intros parsedTx. simpl.
    destruct (res_Transaction txResult) as [envelope|].
    + destruct (Envelope_GetTransaction envelope) as [parsed [decodeErr|]] eqn:Hdecode;
        simpl; split.
      * done.
      * intros (envelope' & Henv & Hdecode'). simplify_eq. congruence.
      * intros ->. by exists envelope.
      * intros (envelope' & Henv & Hdecode'). simplify_eq. congruence.
    + split; [done|]. by intros (envelope & ? & _).
Qed.

(** ** [main] *)

(** X9. [main] leaves through [log.Fatal] exactly when [RPC_URL] or
    [WALLET_ADDRESS] is missing, whatever the upstream answers. *)
Theorem main_Exited_iff (rpc_New : string → rpc_Client) (TRANSACTIONS_LIMIT : Z)
    env now order :
  (∃ msg, main rpc_New TRANSACTIONS_LIMIT env now order = Exited msg) ↔
  Getenv env "RPC_URL" = "" ∨ Getenv env "WALLET_ADDRESS" = "".
Proof.
  unfold main, GetRPCURL, GetWalletAddress.
  destruct (decide (Getenv env "RPC_URL" = "")) as [Hurl|Hurl]; simpl.
  { split; [by left|]. by eexists. }
  destruct (decide (Getenv env "WALLET_ADDRESS" = "")) as [Hwallet|Hwallet]; simpl.
  { split; [by right|]. by eexists. }
  split; [|by intros [?|?]].
  intros [msg Hmsg]. exfalso.
  destruct (GetAccountFromPublicKey (Getenv env "WALLET_ADDRESS")) as [account parseErr].
  set (t := NewTransactionService (rpc_New (Getenv env "RPC_URL"))) in *.
  destruct (GetSignaturesForAddress (client t) account) as [signatures|e] eqn:Hlist.
  - destruct (FetchAccountTransactions_batch t account TRANSACTIONS_LIMIT now order _ Hlist)
      as [transactions Hbatch].
    rewrite Hbatch in Hmsg. simpl in Hmsg. by case_bool_decide.
  - by rewrite (FetchAccountTransactions_failure _ _ _ _ _ _ Hlist) in Hmsg.
Qed.

(** On a listing without a nil entry: when the configuration is present
    and the listing succeeds, [main] goes to the analysis with the batch
    when at least one fetch succeeded, and to the "no recent
    transactions" message when none did. *)
Lemma main_report (rpc_New : string → rpc_Client) (TRANSACTIONS_LIMIT : Z)
    env now order rpcURL walletAddr signatures :
  GetRPCURL env = Returned rpcURL →
  GetWalletAddress env = Returned walletAddr →
  GetSignaturesForAddress (rpc_New rpcURL) (fst (GetAccountFromPublicKey walletAddr))
  = inl signatures →
  order ≡ₚ seq 0 (processCount signatures TRANSACTIONS_LIMIT) →
  main rpc_New TRANSACTIONS_LIMIT env now order
  = Returned
      match omap (record (NewTransactionService (rpc_New rpcURL)) signatures)
                 (seq 0 (processCount signatures TRANSACTIONS_LIMIT)) with
      | [] => NoRecentTransactions
      | transactions =>
          Analyze {| Account := fst (GetAccountFromPublicKey walletAddr);
                     Transactions := SliceOf transactions;
                     LastFetched := now |}
      end.
Proof.
  intros Hurl Hwallet Hlist Horder.
  unfold main. rewrite Hurl, Hwallet. simpl.
  destruct (GetAccountFromPublicKey walletAddr) as [account parseErr]. simpl in *.
  rewrite (FetchAccountTransactions_Returned
             (NewTransactionService (rpc_New rpcURL)) _ _ _ _ signatures) by done.
  simpl. unfold len. simpl.
  by destruct (omap _ _).
Qed.

(** X11. A wallet address that does not parse does not stop [main]: the error
    is only logged, and [main] lists and reports the transactions of the
    zero public key. *)
Theorem main_invalid_address_uses_zero_key
    (rpc_New : string → rpc_Client) (TRANSACTIONS_LIMIT : Z)
    env now order rpcURL walletAddr parseErr signatures txInfo transactions :
  GetRPCURL env = Returned rpcURL →
  GetWalletAddress env = Returned walletAddr →
  PublicKeyFromBase58 walletAddr = inr parseErr →
  GetSignaturesForAddress (rpc_New rpcURL) PublicKey_zero = inl signatures →
  order ≡ₚ seq 0 (processCount signatures TRANSACTIONS_LIMIT) →
  omap (record (NewTransactionService (rpc_New rpcURL)) signatures)
       (seq 0 (processCount signatures TRANSACTIONS_LIMIT)) = txInfo :: transactions →
  main rpc_New TRANSACTIONS_LIMIT env now order
  = Returned (Analyze {| Account := PublicKey_zero;
                         Transactions := SliceOf (txInfo :: transactions);
                         LastFetched := now |}).
Proof.
  intros Hurl Hwallet Hparse Hlist Horder Hrecords.
  assert (Haccount : fst (GetAccountFromPublicKey walletAddr) = PublicKey_zero).
  { unfold GetAccountFromPublicKey. by rewrite Hparse. }
  rewrite (main_report rpc_New TRANSACTIONS_LIMIT env now order rpcURL walletAddr
             signatures Hurl Hwallet); [|by rewrite Haccount|done].
  by rewrite Hrecords, Haccount.
Qed.

End PipelineMore.

(** ** The listing as a slice of pointers: the batch and [main] *)

Section PointerMore.

Context `{SolanaGo}.
Implicit Types (c : rpc_RawClient).
Implicit Types (pointers : list (option rpc_TransactionSignature)).
Implicit Types (limit now : Z) (order : list nat).

(** Among the entries read, either none is nil or one is. *)
Lemma nil_entry_dec pointers n :
  n ≤ length pointers →
  Forall is_Some (take n pointers) ∨ ∃ i, i < n ∧ pointers !! i = Some None.
Proof.
  intros Hle.
  destruct (decide (Forall is_Some (take n pointers))) as [Hsome|Hnil]; [by left|].
  right. apply not_Forall_Exists in Hnil; [|apply _].
  apply Exists_exists in Hnil as (p & Hin & Hp).
  apply list_elem_of_lookup in Hin as [i Hi].
  assert (i < n).
  { apply lookup_lt_Some in Hi. rewrite length_take in Hi. lia. }
  rewrite lookup_take_lt in Hi by done.
  exists i. split; [done|].
  destruct p as [sig|]; [|done]. destruct Hp. by eexists.
Qed.



(** X28. When the listing succeeds, the call panics, in whatever order
    its goroutines complete, exactly when one of the entries that are
    read (the first [processCount] of them) is a nil pointer; a nil entry
    past them is never read. *)
Theorem FetchAccountTransactions_raw_Panicked_iff
    c account limit now order pointers :
  Raw_GetSignaturesForAddress c account = inl pointers →
  order ≡ₚ seq 0 (processCount_raw pointers limit) →
  (∃ msg, FetchAccountTransactions_raw c account limit now order = Panicked msg) ↔
  (∃ i, i < processCount_raw pointers limit ∧ pointers !! i = Some None).
Proof.
  intros Hlist Horder. split.
  - intros [msg Hmsg].
    destruct (nil_entry_dec pointers _ (processCount_raw_le pointers limit))
      as [Hsome|Hnil]; [|done].
    exfalso. revert Hmsg. rewrite FetchAccountTransactions_raw_checked.
    2:{ intros pointers' Hlist'. congruence. }
    destruct (FetchAccountTransactions_batch (NewTransactionService (checked c))
                account limit now order (non_nil pointers))
      as [transactions ->]; [|done].
    cbn. by rewrite Hlist.
  - intros (i & Hi & Hnil). eexists.
    by eapply FetchAccountTransactions_raw_Panicked.
Qed.

(** X29. When the listing succeeds and none of the entries that are read
    is a nil pointer, the batch is, for every completion order, the
    records of the fetches that succeeded, by ascending index; the
    entries past the bound, nil or not, have no part in it. *)
Theorem FetchAccountTransactions_raw_batch
    c account limit now order pointers :
  Raw_GetSignaturesForAddress c account = inl pointers →
  Forall is_Some (take (processCount_raw pointers limit) pointers) →
  order ≡ₚ seq 0 (processCount_raw pointers limit) →
  FetchAccountTransactions_raw c account limit now order
  = Returned (Some {| Account := account;
                      Transactions :=
                        SliceOf (omap (record_raw c pointers)
                                      (seq 0 (processCount_raw pointers limit)));
                      LastFetched := now |}, None).
Proof.
  intros Hlist Hsome Horder.
  rewrite FetchAccountTransactions_raw_checked.
  2:{ intros pointers' Hlist'. congruence. }
  rewrite (records_raw_checked _ _ _ (processCount_raw_le _ _) Hsome).
  rewrite (FetchAccountTransactions_Returned _ _ _ _ _ (non_nil pointers)).
  - by rewrite processCount_non_nil.
  - cbn. by rewrite Hlist.
  - by rewrite processCount_non_nil.
Qed.

(** X30. When the configuration is present, the listing succeeds and one of
    the entries that are read is a nil pointer, [main] panics. *)
Theorem main_raw_nil_entry_panics (rpc_New : string → rpc_RawClient)
    (TRANSACTIONS_LIMIT : Z) env now order rpcURL walletAddr pointers i :
  GetRPCURL env = Returned rpcURL →
  GetWalletAddress env = Returned walletAddr →
  Raw_GetSignaturesForAddress (rpc_New rpcURL) (fst (GetAccountFromPublicKey walletAddr))
  = inl pointers →
  order ≡ₚ seq 0 (processCount_raw pointers TRANSACTIONS_LIMIT) →
  i < processCount_raw pointers TRANSACTIONS_LIMIT →
  pointers !! i = Some None →
  main_raw rpc_New TRANSACTIONS_LIMIT env now order
  = Panicked "invalid memory address or nil pointer dereference".
Proof.
  intros Hurl Hwallet Hlist Horder Hi Hnil.
  unfold main_raw. rewrite Hurl, Hwallet. cbn [mbind outcome_bind].
  destruct (GetAccountFromPublicKey walletAddr) as [account parseErr]. simpl in Hlist.
  by rewrite (FetchAccountTransactions_raw_Panicked _ _ _ _ _ _ _ Hlist Horder Hi Hnil).
Qed.

End PointerMore.

(** ** The WebSocket address and the endpoint of the listener *)

Lemma str_take_drop (n : nat) (s : string) :
  n ≤ String.length s → str_take n s +:+ str_drop n s = s.
Proof.
  unfold str_take, str_drop. revert n.
  induction s as [|c s IH]; intros n Hn.
  - destruct n; [done|]. simpl in Hn. lia.
  - destruct n as [|n].
    + simpl. by rewrite substring_all.
    + simpl in *. change (String c (substring 0 n s)
                            +:+ substring n (String.length s - n) s)
        with (String c (substring 0 n s +:+ substring n (String.length s - n) s)).
      f_equal. apply IH. lia.
Qed.

Lemma HasPrefix_true (s prefix : string) :
  HasPrefix s prefix = true ↔ ∃ rest, s = prefix +:+ rest.
Proof.
  unfold HasPrefix. rewrite andb_true_iff, !bool_decide_eq_true. split.
  - intros [Hlen Htake]. exists (str_drop (String.length prefix) s).
    rewrite <- Htake at 1. by rewrite str_take_drop.
  - intros [rest ->]. split.
    + rewrite str_length_app. lia.
    + apply str_take_prefix.
Qed.

Lemma HasPrefix_false (s prefix : string) :
  HasPrefix s prefix = false ↔ ∀ rest, s ≠ prefix +:+ rest.
Proof.
  rewrite <- not_true_iff_false, HasPrefix_true. split.
  - intros Hno rest Heq. apply Hno. by exists rest.
  - intros Hno [rest Heq]. by apply (Hno rest).
Qed.

Lemma TrimPrefix_prefix (prefix rest : string) :
  TrimPrefix (prefix +:+ rest) prefix = rest.
Proof.
  unfold TrimPrefix.
  assert (Hpre : HasPrefix (prefix +:+ rest) prefix = true)
    by (apply HasPrefix_true; by exists rest).
  rewrite Hpre. apply str_drop_prefix.
Qed.

(** The three cases of [GetWSURL] when [WS_URL] is not set. *)
Lemma GetWSURL_derived (env : environ) :
  Getenv env "WS_URL" = "" →
  Getenv env "RPC_URL" ≠ "" →
  GetWSURL env
  = Returned
      (if HasPrefix (Getenv env "RPC_URL") "https://"
       then "wss://" +:+ str_drop 8 (Getenv env "RPC_URL")
       else if HasPrefix (Getenv env "RPC_URL") "http://"
       then "ws://" +:+ str_drop 7 (Getenv env "RPC_URL")
       else Getenv env "RPC_URL").
Proof.
  intros Hws Hrpc. unfold GetWSURL. rewrite Hws.
  rewrite (bool_decide_eq_true_2 ("" = "")) by done. cbn [negb].
  rewrite decide_False by done.
  change (bool_decide (8 ≤ String.length (Getenv env "RPC_URL"))
          && bool_decide (str_take 8 (Getenv env "RPC_URL") = "https://"))
    with (HasPrefix (Getenv env "RPC_URL") "https://").
  change (bool_decide (7 ≤ String.length (Getenv env "RPC_URL"))
          && bool_decide (str_take 7 (Getenv env "RPC_URL") = "http://"))
    with (HasPrefix (Getenv env "RPC_URL") "http://").
  destruct (HasPrefix _ "https://"); [done|].
  destruct (HasPrefix _ "http://"); [done|].
  by repeat destruct (_ && _).
Qed.

(** X12. [GetWSURL] leaves through [log.Fatal] exactly when neither [WS_URL]
    nor [RPC_URL] is set; a [WS_URL] that is set is returned as it is,
    even without an [RPC_URL]. *)
Theorem GetWSURL_Exited_iff (env : environ) :
  ((∃ msg, GetWSURL env = Exited msg) ↔
   Getenv env "WS_URL" = "" ∧ Getenv env "RPC_URL" = "")
  ∧ (Getenv env "WS_URL" ≠ "" → GetWSURL env = Returned (Getenv env "WS_URL")).
Proof.
  split.
  - destruct (decide (Getenv env "WS_URL" = "")) as [Hws|Hws].
    + destruct (decide (Getenv env "RPC_URL" = "")) as [Hrpc|Hrpc].
      * split; [done|]. intros _. unfold GetWSURL. rewrite Hws, Hrpc. simpl.
        by eexists.
      * rewrite (GetWSURL_derived env Hws Hrpc). split; [by intros [? ?]|].
        by intros [_ ?].
    + unfold GetWSURL. rewrite (bool_decide_eq_false_2 _ Hws). simpl.
      split; [by intros [? ?]|]. by intros [? _].
  - intros Hws. unfold GetWSURL. by rewrite (bool_decide_eq_false_2 _ Hws).
Qed.

(** X13. An address that [GetWSURL] derives from [RPC_URL] never has the
    scheme [http://] or [https://], and an [RPC_URL] with neither scheme
    is returned unchanged. *)
Theorem GetWSURL_derived_never_http (env : environ) (wsURL : string) :
  Getenv env "WS_URL" = "" →
  GetWSURL env = Returned wsURL →
  HasPrefix wsURL "http://" = false
  ∧ HasPrefix wsURL "https://" = false
  ∧ (HasPrefix (Getenv env "RPC_URL") "http://" = false →
     HasPrefix (Getenv env "RPC_URL") "https://" = false →
     wsURL = Getenv env "RPC_URL").
Proof.
  intros Hws Hget.
  destruct (decide (Getenv env "RPC_URL" = "")) as [Hrpc|Hrpc].
  { unfold GetWSURL in Hget. rewrite Hws, Hrpc in Hget. done. }
  rewrite (GetWSURL_derived env Hws Hrpc) in Hget.
  destruct (HasPrefix (Getenv env "RPC_URL") "https://") eqn:Hhttps.
  { injection Hget as <-. split_and!; [| |done].
    - apply HasPrefix_false. intros rest Heq. cbn in Heq. discriminate Heq.
    - apply HasPrefix_false. intros rest Heq. cbn in Heq. discriminate Heq. }
  destruct (HasPrefix (Getenv env "RPC_URL") "http://") eqn:Hhttp.
  { injection Hget as <-. split_and!; [| |done].
    - apply HasPrefix_false. intros rest Heq. cbn in Heq. discriminate Heq.
    - apply HasPrefix_false. intros rest Heq. cbn in Heq. discriminate Heq. }
  injection Hget as <-. by split_and!.
Qed.

(** X14. The listener undoes the substitution of [GetWSURL]: [wss://] becomes
    [https://] and [ws://] becomes [http://], so that for an [RPC_URL]
    that is not itself a WebSocket address, and no [WS_URL], the listener
    polls [RPC_URL] itself. *)
Theorem ListenWalletTransactions_polls_RPC_URL (env : environ) (wsURL : string) :
  Getenv env "WS_URL" = "" →
  GetWSURL env = Returned wsURL →
  HasPrefix (Getenv env "RPC_URL") "wss://" = false →
  HasPrefix (Getenv env "RPC_URL") "ws://" = false →
  ListenWalletTransactions_httpURL wsURL = Getenv env "RPC_URL".
Proof.
  intros Hws Hget Hwss Hnows.
  destruct (decide (Getenv env "RPC_URL" = "")) as [Hrpc|Hrpc].
  { unfold GetWSURL in Hget. rewrite Hws, Hrpc in Hget. done. }
  rewrite (GetWSURL_derived env Hws Hrpc) in Hget.
  unfold ListenWalletTransactions_httpURL.
  destruct (HasPrefix (Getenv env "RPC_URL") "https://") eqn:Hhttps.
  { injection Hget as <-.
    apply HasPrefix_true in Hhttps as [rest Hrest]. rewrite Hrest.
    assert (Hdrop : str_drop 8 ("https://" +:+ rest) = rest)
      by apply (str_drop_prefix "https://" rest).
    rewrite Hdrop.
    assert (Hpre : HasPrefix ("wss://" +:+ rest) "wss://" = true)
      by (apply HasPrefix_true; by exists rest).
    by rewrite Hpre, TrimPrefix_prefix. }
  destruct (HasPrefix (Getenv env "RPC_URL") "http://") eqn:Hhttp.
  { injection Hget as <-.
    apply HasPrefix_true in Hhttp as [rest Hrest]. rewrite Hrest.
    assert (Hdrop : str_drop 7 ("http://" +:+ rest) = rest)
      by apply (str_drop_prefix "http://" rest).
    rewrite Hdrop.
    assert (Hnot : HasPrefix ("ws://" +:+ rest) "wss://" = false).
    { apply HasPrefix_false. intros rest' Heq. cbn in Heq. discriminate Heq. }
    assert (Hpre : HasPrefix ("ws://" +:+ rest) "ws://" = true)
      by (apply HasPrefix_true; by exists rest).
    by rewrite Hnot, Hpre, TrimPrefix_prefix. }
  injection Hget as <-. by rewrite Hwss, Hnows.
Qed.

(** ** The polling listener *)

Lemma observed_app (log1 log2 : list log_line) :
  observed (log1 ++ log2) = observed log1 ++ observed log2.
Proof. apply omap_app. Qed.

Lemma follows_refl (st : listener) : follows st st.
Proof.
  exists []. split_and!.
  - by rewrite app_nil_r.
  - constructor.
  - intros x Hx. by apply elem_of_nil in Hx.
  - simpl. set_solver.
Qed.

Lemma follows_trans (st1 st2 st3 : listener) :
  follows st1 st2 → follows st2 st3 → follows st1 st3.
Proof.
  intros (new1 & Hlog1 & Hnd1 & Hfresh1 & Hseen1) (new2 & Hlog2 & Hnd2 & Hfresh2 & Hseen2).
  exists (new1 ++ new2). rewrite observed_app. split_and!.
  - by rewrite Hlog2, Hlog1, app_assoc.
  - apply NoDup_app. split_and!; [done| |done].
    intros x Hx1 Hx2. apply (Hfresh2 x Hx2). rewrite Hseen1.
    apply elem_of_union. right. by apply elem_of_list_to_set.
  - intros x Hx. apply elem_of_app in Hx as [Hx|Hx]; [by apply Hfresh1|].
    intros Hin. apply (Hfresh2 x Hx). rewrite Hseen1. set_solver.
  - rewrite Hseen2, Hseen1, list_to_set_app_L. set_solver.
Qed.

Lemma follows_seen (st st' : listener) x : follows st st' → x ∈ seen st → x ∈ seen st'.
Proof. intros (new & _ & _ & _ & ->) Hx. set_solver. Qed.

Section ListenerFacts.

Context `{SolanaGo}.
Implicit Types (st : listener) (sigs : list rpc_TransactionSignature).
Implicit Types (poll : nat → list rpc_TransactionSignature + error).

Lemma elem_of_seed (seen0 : gset string) sigs x :
  x ∈ seed seen0 sigs ↔
  x ∈ seen0 ∨ ∃ s, s ∈ sigs ∧ Signature_String (sig_Signature s) = x.
Proof.
  unfold seed. revert seen0.
  induction sigs as [|s sigs IH]; intros seen0; simpl.
  - split; [by left|]. intros [?|(s & Hs & _)]; [done|]. by apply elem_of_nil in Hs.
  - rewrite IH. split.
    + intros [Hx|(s' & Hs' & Hx)].
      * apply elem_of_union in Hx as [Hx|Hx]; [|by left].
        apply elem_of_singleton in Hx. right. exists s. split; [left|done].
      * right. exists s'. split; [by right|done].
    + intros [Hx|(s' & Hs' & Hx)].
      * left. set_solver.
      * apply elem_of_cons in Hs' as [->|Hs'].
        -- left. set_solver.
        -- right. by exists s'.
Qed.

Lemma follows_observe st s : follows st (observe st s).
Proof.
  unfold observe. case_decide as Hseen; [apply follows_refl|].
  exists [TxObserved (Signature_String (sig_Signature s)) (sig_Slot s)]. simpl.
  split_and!.
  - done.
  - apply NoDup_singleton.
  - intros x Hx. apply list_elem_of_singleton in Hx. by subst x.
  - set_solver.
Qed.

Lemma follows_foldl_observe st sigs : follows st (foldl observe st sigs).
Proof.
  revert st. induction sigs as [|s sigs IH]; intros st; simpl.
  - apply follows_refl.
  - eapply follows_trans; [apply follows_observe|apply IH].
Qed.

Lemma seen_foldl_observe st sigs s :
  s ∈ sigs → Signature_String (sig_Signature s) ∈ seen (foldl observe st sigs).
Proof.
  revert st. induction sigs as [|s' sigs IH]; intros st Hs.
  - by apply elem_of_nil in Hs.
  - simpl. apply elem_of_cons in Hs as [->|Hs]; [|by apply IH].
    apply (follows_seen _ _ _ (follows_foldl_observe _ _)).
    unfold observe. case_decide; [done|]. simpl. set_solver.
Qed.

Lemma follows_poll_loop poll cases calls st :
  follows st (snd (poll_loop poll cases calls st)).
Proof.
  revert calls st. induction cases as [|[|ctxErr] cases IH]; intros calls st; simpl.
  - apply follows_refl.
  - destruct (poll calls) as [sigs|e].
    + eapply follows_trans; [apply follows_foldl_observe|apply IH].
    + eapply follows_trans; [|apply IH].
      exists [PollError e]. simpl. split_and!; [done|constructor| |set_solver].
      intros x Hx. by apply elem_of_nil in Hx.
  - apply follows_refl.
Qed.

Lemma poll_loop_listed poll cases calls st k sigs s :
  calls ≤ k < calls + ticks cases →
  poll k = inl sigs →
  s ∈ sigs →
  Signature_String (sig_Signature s) ∈ seen (snd (poll_loop poll cases calls st)).
Proof.
  revert calls st. induction cases as [|[|ctxErr] cases IH]; intros calls st Hk Hpoll Hs;
    simpl in *; [lia| |lia].
  destruct (decide (k = calls)) as [->|Hne].
  - rewrite Hpoll.
    apply (follows_seen _ _ _ (follows_poll_loop _ _ _ _)).
    apply seen_foldl_observe. by apply elem_of_reverse.
  - destruct (poll calls); apply IH; (done || lia).
Qed.

Lemma poll_loop_Done poll pre ctxErr post calls st :
  Forall (fun c => c = Tick) pre →
  poll_loop poll (pre ++ Done ctxErr :: post) calls st
  = (Some ctxErr, snd (poll_loop poll pre calls st))
  ∧ fst (poll_loop poll pre calls st) = None.
Proof.
  intros Hpre. revert calls st.
  induction Hpre as [|c pre -> _ IH]; intros calls st; simpl; [done|].
  destruct (poll calls); apply IH.
Qed.

(** X15. The listener reports no signature twice, and none of the signatures
    it found when it started. *)
Theorem ListenWalletTransactions_reports_once
    (upstream : string → solana_PublicKey → nat → list rpc_TransactionSignature + error)
    wsURL wallet cases :
  NoDup (observed (logged (snd (ListenWalletTransactions upstream wsURL wallet cases))))
  ∧ ∀ sigs s,
      upstream (ListenWalletTransactions_httpURL wsURL) wallet 0 = inl sigs →
      s ∈ sigs →
      Signature_String (sig_Signature s)
      ∉ observed (logged (snd (ListenWalletTransactions upstream wsURL wallet cases))).
Proof.
  unfold ListenWalletTransactions.
  set (poll := upstream (ListenWalletTransactions_httpURL wsURL) wallet).
  set (st0 := {| seen := match poll 0 with inl sigs => seed ∅ sigs | inr _ => ∅ end;
                 logged := [Listening (PublicKey_String wallet)] |}).
  destruct (follows_poll_loop poll cases 1 st0) as (new & Hlog & Hnd & Hfresh & _).
  rewrite Hlog. simpl. split; [done|].
  intros sigs s Hpoll Hs Hin. apply (Hfresh _ Hin). simpl. rewrite Hpoll.
  apply elem_of_seed. right. by exists s.
Qed.

(** X16. Every signature that a successful poll lists is reported, unless the
    listener found it when it started. *)
Theorem ListenWalletTransactions_reports_listed
    (upstream : string → solana_PublicKey → nat → list rpc_TransactionSignature + error)
    wsURL wallet cases k sigs s :
  1 ≤ k ≤ ticks cases →
  upstream (ListenWalletTransactions_httpURL wsURL) wallet k = inl sigs →
  s ∈ sigs →
  Signature_String (sig_Signature s)
  ∈ observed (logged (snd (ListenWalletTransactions upstream wsURL wallet cases)))
  ∨ ∃ sigs0 s0,
      upstream (ListenWalletTransactions_httpURL wsURL) wallet 0 = inl sigs0
      ∧ s0 ∈ sigs0
      ∧ Signature_String (sig_Signature s0) = Signature_String (sig_Signature s).
Proof.
  intros Hk Hpoll Hs. unfold ListenWalletTransactions.
  set (poll := upstream (ListenWalletTransactions_httpURL wsURL) wallet) in *.
  set (st0 := {| seen := match poll 0 with inl sigs => seed ∅ sigs | inr _ => ∅ end;
                 logged := [Listening (PublicKey_String wallet)] |}).
  assert (Hseen : Signature_String (sig_Signature s)
                  ∈ seen (snd (poll_loop poll cases 1 st0)))
    by (apply (poll_loop_listed poll cases 1 st0 k sigs s); [lia|done|done]).
  destruct (follows_poll_loop poll cases 1 st0) as (new & Hlog & _ & _ & Hset).
  rewrite Hset in Hseen. rewrite Hlog. simpl.
  apply elem_of_union in Hseen as [Hseen|Hseen].
  - right. simpl in Hseen. destruct (poll 0) as [sigs0|e]; [|set_solver].
    apply elem_of_seed in Hseen as [Hseen|(s0 & Hs0 & Heq)]; [set_solver|].
    by exists sigs0, s0.
  - left. by apply elem_of_list_to_set in Hseen.
Qed.

(** X18. The listener returns when the context ends and not before: with the
    error of the context, after the polls of the ticks before that, and
    whatever would have followed. *)
Theorem ListenWalletTransactions_returns_at_Done
    (upstream : string → solana_PublicKey → nat → list rpc_TransactionSignature + error)
    wsURL wallet pre ctxErr post :
  Forall (fun c => c = Tick) pre →
  ListenWalletTransactions upstream wsURL wallet (pre ++ Done ctxErr :: post)
  = (Some ctxErr, snd (ListenWalletTransactions upstream wsURL wallet pre))
  ∧ fst (ListenWalletTransactions upstream wsURL wallet pre) = None.
Proof. intros Hpre. unfold ListenWalletTransactions. by apply poll_loop_Done. Qed.

Lemma filter_ext_elem_of {A} (P Q : A → Prop) `{∀ x, Decision (P x)} `{∀ x, Decision (Q x)}
    (l : list A) :
  (∀ x, x ∈ l → P x ↔ Q x) → filter P l = filter Q l.
Proof.
  induction l as [|x l IH]; intros Hext; [done|].
  rewrite !filter_cons.
  rewrite IH by (intros y Hy; apply Hext; by right).
  destruct (Hext x) as [HPQ HQP]; [left|].
  destruct (decide (P x)), (decide (Q x)); tauto || done.
Qed.

Lemma foldl_observe_fresh st sigs :
  NoDup ((fun s => Signature_String (sig_Signature s)) <$> sigs) →
  foldl observe st sigs
  = {| seen := seen st
               ∪ list_to_set ((fun s => Signature_String (sig_Signature s)) <$> sigs);
       logged := logged st
                 ++ ((fun s => TxObserved (Signature_String (sig_Signature s)) (sig_Slot s))
                       <$> filter (fun s => Signature_String (sig_Signature s) ∉ seen st)
                                  sigs) |}.
Proof.
  revert st. induction sigs as [|s sigs IH]; intros st Hnd.
  - destruct st as [seen0 log0]. simpl. rewrite app_nil_r. f_equal. set_solver.
  - rewrite fmap_cons in Hnd. apply NoDup_cons in Hnd as [Hfresh Hnd].
    simpl. rewrite IH by done. rewrite filter_cons.
    unfold observe. destruct (decide (_ ∈ seen st)) as [Hseen|Hseen].
    + rewrite decide_False by (intros Hno; by apply Hno). f_equal. set_solver.
    + rewrite decide_True by done. simpl. f_equal; [set_solver|].
      rewrite <- app_assoc. simpl. do 3 f_equal.
      apply filter_ext_elem_of. intros s' Hs'.
      assert (Hne : Signature_String (sig_Signature s')
                    ≠ Signature_String (sig_Signature s)).
      { intros Heq. apply Hfresh. rewrite <- Heq.
        by apply (list_elem_of_fmap_2 (fun s => Signature_String (sig_Signature s))). }
      set_solver.
Qed.

(** X17. One poll reports the signatures it had not seen from the oldest to
    the newest, that is from the end of the listing to its start, and
    remembers all the signatures listed. *)
Theorem poll_loop_oldest_first poll cases calls st sigs :
  poll calls = inl sigs →
  NoDup ((fun s => Signature_String (sig_Signature s)) <$> sigs) →
  poll_loop poll (Tick :: cases) calls st
  = poll_loop poll cases (S calls)
      {| seen := seen st
                 ∪ list_to_set ((fun s => Signature_String (sig_Signature s)) <$> sigs);
         logged := logged st
                   ++ ((fun s => TxObserved (Signature_String (sig_Signature s)) (sig_Slot s))
                         <$> reverse
                               (filter (fun s => Signature_String (sig_Signature s)
                                                 ∉ seen st) sigs)) |}.
Proof.
  intros Hpoll Hnd. simpl. rewrite Hpoll.
  rewrite foldl_observe_fresh by (by rewrite fmap_reverse, reverse_Permutation).
  rewrite filter_reverse. do 2 f_equal.
  apply set_eq. intros x. rewrite !elem_of_union, !elem_of_list_to_set.
  by rewrite fmap_reverse, elem_of_reverse.
Qed.

End ListenerFacts.

(** ** The token registry *)

Lemma foldl_insert_union (kvs : list (string * TokenInfo)) (merged : gmap string TokenInfo) :
  NoDup kvs.*1 →
  foldl (fun merged kv => <[fst kv := snd kv]> merged) merged kvs
  = list_to_map kvs ∪ merged.
Proof.
  revert merged. induction kvs as [|[k v] kvs IH]; intros merged Hnd; simpl.
  - by rewrite (left_id_L ∅ (∪)).
  - rewrite fmap_cons in Hnd. apply NoDup_cons in Hnd as [Hfresh Hnd].
    rewrite IH by done. simpl.
    apply not_elem_of_list_to_map_1 in Hfresh. simpl in Hfresh.
    apply map_eq. intros i. rewrite !lookup_union.
    destruct (decide (k = i)) as [->|Hne].
    + rewrite !lookup_insert_eq, Hfresh. by destruct (merged !! i).
    + by rewrite !lookup_insert_ne by done.
Qed.

Lemma foldl_insert_missing_union (kvs : list (string * TokenInfo))
    (merged : gmap string TokenInfo) :
  NoDup kvs.*1 →
  foldl (fun merged kv =>
           match merged !! fst kv with
           | Some _ => merged
           | None => <[fst kv := snd kv]> merged
           end) merged kvs
  = merged ∪ list_to_map kvs.
Proof.
  revert merged. induction kvs as [|[k v] kvs IH]; intros merged Hnd; simpl.
  - by rewrite (right_id_L ∅ (∪)).
  - rewrite fmap_cons in Hnd. apply NoDup_cons in Hnd as [Hfresh Hnd].
    rewrite IH by done.
    apply not_elem_of_list_to_map_1 in Hfresh. simpl in Hfresh.
    apply map_eq. intros i.
    destruct (merged !! k) as [w|] eqn:Hk; rewrite !lookup_union.
    + destruct (decide (k = i)) as [->|Hne].
      * by rewrite Hk, lookup_insert_eq, Hfresh.
      * by rewrite lookup_insert_ne by done.
    + destruct (decide (k = i)) as [->|Hne].
      * by rewrite !lookup_insert_eq, Hk, Hfresh.
      * by rewrite !lookup_insert_ne by done.
Qed.

Section RegistryFacts.

Variable Unmarshal_items : string → list TokenInfo + error.
Variable Unmarshal_tokenListResponse : string → list TokenInfo + error.
Variable range : gmap string TokenInfo → list (string * TokenInfo).
Hypothesis range_Permutation : ∀ m, range m ≡ₚ map_to_list m.

Lemma list_to_map_range (m : gmap string TokenInfo) : list_to_map (range m) = m.
Proof.
  rewrite <- (list_to_map_to_list m) at 2.
  apply list_to_map_proper; [|done].
  rewrite range_Permutation. apply NoDup_fst_map_to_list.
Qed.

Lemma NoDup_range (m : gmap string TokenInfo) : NoDup (range m).*1.
Proof. rewrite range_Permutation. apply NoDup_fst_map_to_list. Qed.

Lemma merge_all_union merged m : merge_all range merged m = default ∅ m ∪ merged.
Proof.
  unfold merge_all. rewrite foldl_insert_union by apply NoDup_range.
  by rewrite list_to_map_range.
Qed.

Lemma merge_missing_union merged m : merge_missing range merged m = merged ∪ default ∅ m.
Proof.
  unfold merge_missing. rewrite foldl_insert_missing_union by apply NoDup_range.
  by rewrite list_to_map_range.
Qed.

Lemma jupiter_index_lookup (items : list TokenInfo) (k : string) :
  foldl (fun out it =>
           if decide (Address it = "") then out
           else <[Address it := {| Address := Address it; Symbol := Symbol it;
                                   Name := Name it |}]> out)
        (∅ : gmap string TokenInfo) items !! k
  = if decide (k = "") then None
    else last (filter (fun it => Address it = k) items).
Proof.
  induction items as [|it items IH] using rev_ind.
  - simpl. rewrite lookup_empty. by case_decide.
  - rewrite foldl_snoc, filter_app, filter_cons, filter_nil.
    destruct (decide (Address it = "")) as [Hempty|Hfull].
    + rewrite IH. case_decide as Hk; [done|].
      rewrite decide_False by congruence. by rewrite app_nil_r.
    + destruct (decide (Address it = k)) as [Hit|Hit].
      * rewrite Hit at 1. rewrite lookup_insert_eq.
        rewrite decide_False by congruence. rewrite last_snoc. by destruct it.
      * rewrite lookup_insert_ne by done. rewrite IH. by rewrite app_nil_r.
Qed.

(** X19. A Jupiter list that is fetched, read and decoded is indexed by
    address: entries without an address are left out, every entry sits
    under its own address, and of several entries with one address the
    last one of the list stays. *)
Theorem loadJupiterList_index (net : string → http_exchange) url status body items :
  net url = Response 200 status (inl body) →
  Unmarshal_items body = inl items →
  ∃ out,
    loadJupiterList Unmarshal_items net url = (Some out, None)
    ∧ out !! "" = None
    ∧ (∀ k v, out !! k = Some v → Address v = k)
    ∧ (∀ k, k ≠ "" → out !! k = last (filter (fun it => Address it = k) items)).
Proof.
  intros Hnet Hdecode. unfold loadJupiterList. rewrite Hnet. simpl.
  rewrite Hdecode. eexists. split; [done|]. split_and!.
  - by rewrite jupiter_index_lookup.
  - intros k v. rewrite jupiter_index_lookup. case_decide; [done|].
    intros Hlast. apply last_Some in Hlast as [front Hfront].
    assert (Hin : v ∈ filter (fun it => Address it = k) items).
    { rewrite Hfront. apply elem_of_app. right. left. }
    by apply list_elem_of_filter in Hin as [? _].
  - intros k Hk. rewrite jupiter_index_lookup. by rewrite decide_False.
Qed.

(** X20. [loadJupiterList] returns a map exactly when the response has status
    200, its body is read and the body decodes; in every other case it
    returns a nil map with an error. *)
Theorem loadJupiterList_map_or_error (net : string → http_exchange) url :
  (∃ out, loadJupiterList Unmarshal_items net url = (Some out, None))
    ∧ (∃ status body items,
         net url = Response 200 status (inl body) ∧ Unmarshal_items body = inl items)
  ∨ (∃ msg, loadJupiterList Unmarshal_items net url = (None, Some msg))
    ∧ ¬ (∃ status body items,
           net url = Response 200 status (inl body) ∧ Unmarshal_items body = inl items).
Proof.
  unfold loadJupiterList.
  destruct (net url) as [e|e|code status [body|e]];
    try (right; split; [by eexists|by intros (? & ? & ? & ? & _)]).
  - case_bool_decide as Hcode; simpl.
    + subst code. destruct (Unmarshal_items body) as [items|e] eqn:Hdecode.
      * left. split; [by eexists|]. by exists status, body, items.
      * right. split; [by eexists|]. intros (? & ? & ? & ? & ?). congruence.
    + right. split; [by eexists|]. intros (? & ? & ? & ? & _). congruence.
  - case_bool_decide as Hcode; simpl;
      (right; split; [by eexists|by intros (? & ? & ? & ? & _)]).
Qed.

Lemma registry_fill_merged (net : string → http_exchange) st :
  registry_fill Unmarshal_items Unmarshal_tokenListResponse range net st
  = let merged :=
      contribution (loadJupiterList Unmarshal_items net "https://token.jup.ag/all")
      ∪ contribution (loadJupiterList Unmarshal_items net "https://token.jup.ag/strict")
      ∪ contribution (loadSolanaLabsList Unmarshal_tokenListResponse net) in
    if bool_decide (size merged = 0)
    then {| registryOnce := true; registryData := registryData st;
            registryErr := Some "no token registry sources available" |}
    else {| registryOnce := true; registryData := Some merged;
            registryErr := registryErr st |}.
Proof.
  unfold registry_fill.
  destruct (loadJupiterList Unmarshal_items net "https://token.jup.ag/all")
    as [all [e1|]];
    destruct (loadJupiterList Unmarshal_items net "https://token.jup.ag/strict")
      as [strict [e2|]];
    destruct (loadSolanaLabsList Unmarshal_tokenListResponse net) as [labs [e3|]];
    cbn [contribution];
    rewrite ?merge_all_union, ?merge_missing_union;
    rewrite ?(right_id_L ∅ (∪)), ?(left_id_L ∅ (∪)); done.
Qed.

(** X21. The first call merges the three sources, the full Jupiter list before
    the strict one before the legacy list: an address has the entry of the
    first of these sources that knows it.  A source that fails counts for
    nothing.  When no source gives any entry the call returns a nil map
    and an error. *)
Theorem LoadDefaultRegistry_precedence (net : string → http_exchange) :
  let all := contribution (loadJupiterList Unmarshal_items net "https://token.jup.ag/all") in
  let strict :=
    contribution (loadJupiterList Unmarshal_items net "https://token.jup.ag/strict") in
  let labs := contribution (loadSolanaLabsList Unmarshal_tokenListResponse net) in
  (all = ∅ ∧ strict = ∅ ∧ labs = ∅ ∧
   fst (LoadDefaultRegistry Unmarshal_items Unmarshal_tokenListResponse range net
          registry_initial)
   = (None, Some "no token registry sources available"))
  ∨ (∃ merged,
       fst (LoadDefaultRegistry Unmarshal_items Unmarshal_tokenListResponse range net
              registry_initial)
       = (Some merged, None)
       ∧ merged ≠ ∅
       ∧ ∀ k, merged !! k
              = match all !! k with
                | Some info => Some info
                | None =>
                    match strict !! k with
                    | Some info => Some info
                    | None => labs !! k
                    end
                end).
Proof.
  intros all strict labs. unfold LoadDefaultRegistry. simpl.
  rewrite registry_fill_merged. cbv zeta. fold all strict labs.
  case_bool_decide as Hsize.
  - left. apply map_size_empty_iff in Hsize.
    assert (Hall : all = ∅ ∧ strict = ∅ ∧ labs = ∅).
    { split_and!; apply map_eq; intros k; rewrite lookup_empty;
        pose proof (f_equal (fun m => m !! k) Hsize) as Hk; simpl in Hk;
        rewrite !lookup_union, lookup_empty in Hk;
        destruct (all !! k), (strict !! k), (labs !! k); done. }
    by destruct Hall as (-> & -> & ->).
  - right. eexists. split; [done|]. split; [by apply map_size_non_empty_iff|].
    intros k. rewrite !lookup_union.
    by destruct (all !! k), (strict !! k), (labs !! k).
Qed.

(** X22. The registry is loaded once: a later call returns what the first call
    returned, the error as well as the map, and the state of the network
    at that later time plays no part. *)
Theorem LoadDefaultRegistry_once (net1 net2 : string → http_exchange) st :
  LoadDefaultRegistry Unmarshal_items Unmarshal_tokenListResponse range net2
    (snd (LoadDefaultRegistry Unmarshal_items Unmarshal_tokenListResponse range net1 st))
  = LoadDefaultRegistry Unmarshal_items Unmarshal_tokenListResponse range net1 st.
Proof.
  unfold LoadDefaultRegistry. simpl.
  destruct (registryOnce st) eqn:Honce.
  - by rewrite Honce.
  - unfold registry_fill. by case_bool_decide.
Qed.

End RegistryFacts.

(** X23. The legacy list is indexed by address as well, but keeps an entry
    without an address; of several entries with one address the last one
    of the list stays. *)
Theorem loadSolanaLabsList_index
    (Unmarshal_tokenListResponse : string → list TokenInfo + error)
    (net : string → http_exchange) status body tokens :
  net tokenListURL = Response 200 status (inl body) →
  Unmarshal_tokenListResponse body = inl tokens →
  ∃ byMint,
    loadSolanaLabsList Unmarshal_tokenListResponse net = (Some byMint, None)
    ∧ ∀ k, byMint !! k = last (filter (fun t => Address t = k) tokens).
Proof.
  intros Hnet Hdecode. unfold loadSolanaLabsList. rewrite Hnet. simpl.
  rewrite Hdecode. eexists. split; [done|].
  clear Hnet Hdecode.
  intros k. induction tokens as [|t tokens IH] using rev_ind; [done|].
  rewrite foldl_snoc, filter_app, filter_cons, filter_nil.
  destruct (decide (Address t = k)) as [Ht|Ht].
  - rewrite Ht at 1. by rewrite lookup_insert_eq, last_snoc.
  - rewrite lookup_insert_ne by done. by rewrite app_nil_r.
Qed.

(** ** The holdings of the portfolio *)

Lemma zero_amount_iff (amt : string) :
  bool_decide (amt = "") || bool_decide (amt = "0") || bool_decide (amt = "0.0")
  || bool_decide (amt = "0.00") || bool_decide (amt = "0.000") = true
  ↔ amt ∈ [""; "0"; "0.0"; "0.00"; "0.000"].
Proof.
  rewrite !orb_true_iff, !bool_decide_eq_true, !elem_of_cons, elem_of_nil. tauto.
Qed.

(** X24. The holdings are the accounts of the response whose amount is none of
    the strings "", "0", "0.0", "0.00" and "0.000", in the order of the
    response, each with its mint, amount and decimals; the name and the
    symbol are those of the registry when it knows the mint, those of
    wrapped SOL for its mint otherwise, and empty for any other mint. *)
Theorem PrintUserTokens_holdings_spec (registry : gmap string TokenInfo)
    (value : list token_account) :
  ∃ holdings,
    PrintUserTokens_holdings registry value = SliceOf holdings
    ∧ (fun h => (Holding.Mint h, Holding.UiAmount h, Holding.Decimals h)) <$> holdings
      = (fun item => (acc_Mint item, acc_UiAmountString item, acc_Decimals item))
          <$> filter (fun item => acc_UiAmountString item
                                  ∉ [""; "0"; "0.0"; "0.00"; "0.000"]) value
    ∧ Forall (fun h =>
                match registry !! Holding.Mint h with
                | Some info => Holding.Name h = Name info ∧ Holding.Symbol h = Symbol info
                | None =>
                    if decide (Holding.Mint h = "So11111111111111111111111111111111111111112")
                    then Holding.Name h = "Wrapped SOL" ∧ Holding.Symbol h = "wSOL"
                    else Holding.Name h = "" ∧ Holding.Symbol h = ""
                end) holdings.
Proof.
  unfold PrintUserTokens_holdings.
  induction value as [|item value IH] using rev_ind.
  - exists []. by split_and!.
  - destruct IH as (holdings & Hfold & Hfields & Hnames).
    rewrite foldl_snoc, Hfold, filter_app, filter_cons, filter_nil.
    destruct (_ || _) eqn:Hzero.
    + apply zero_amount_iff in Hzero.
      exists holdings. rewrite decide_False by (intros Hno; by apply Hno).
      rewrite app_nil_r. by split_and!.
    + assert (Hkeep : acc_UiAmountString item ∉ [""; "0"; "0.0"; "0.00"; "0.000"]).
      { intros Hin. apply zero_amount_iff in Hin. congruence. }
      rewrite decide_True by exact Hkeep.
      destruct (match registry !! acc_Mint item with
                | Some info => (Name info, Symbol info)
                | None =>
                    if bool_decide
                         (acc_Mint item = "So11111111111111111111111111111111111111112")
                    then ("Wrapped SOL", "wSOL")
                    else ("", "")
                end) as [name symbol] eqn:Hpair.
      eexists. unfold append. cbn [elems]. split; [reflexivity|]. split.
      * rewrite !fmap_app, Hfields. reflexivity.
      * apply Forall_app. split; [exact Hnames|].
        constructor; [|constructor]. cbn [Holding.Mint Holding.Name Holding.Symbol].
        destruct (registry !! acc_Mint item) as [info|].
        -- injection Hpair as <- <-. split; reflexivity.
        -- destruct (decide (acc_Mint item = _)) as [Hsol|Hsol].
           ++ rewrite (bool_decide_eq_true_2 _ Hsol) in Hpair.
              injection Hpair as <- <-. split; reflexivity.
           ++ rewrite (bool_decide_eq_false_2 _ Hsol) in Hpair.
              injection Hpair as <- <-. split; reflexivity.
Qed.

(** ** The rows of the program logs *)

Lemma str_take_length (n : nat) (s : string) :
  n ≤ String.length s → String.length (str_take n s) = n.
Proof.
  unfold str_take. revert n. induction s as [|c s IH]; intros n Hn.
  - destruct n; [done|]. simpl in Hn. lia.
  - destruct n as [|n]; [done|]. simpl in *. f_equal. apply IH. lia.
Qed.

Lemma formatProgramLogs_rows_length f maxLogs i logs :
  length (formatProgramLogs_rows f maxLogs i logs) = length logs `min` (maxLogs - i).
Proof.
  revert i. induction logs as [|logMsg logs IH]; intros i; [done|].
  cbn [formatProgramLogs_rows]. case_bool_decide; cbn [length]; [lia|].
  rewrite IH. lia.
Qed.

Lemma formatProgramLogs_rows_lookup f maxLogs i logs j logMsg :
  i + j < maxLogs →
  logs !! j = Some logMsg →
  formatProgramLogs_rows f maxLogs i logs !! j
  = Some [CellInt (Z.of_nat (i + j) + 1);
          CellStr (if bool_decide (80 < String.length logMsg) && negb (showFullData f)
                   then str_take 77 logMsg +:+ "..."
                   else logMsg)].
Proof.
  revert i j. induction logs as [|logMsg' logs IH]; intros i j Hj Hlook; [done|].
  cbn [formatProgramLogs_rows]. rewrite bool_decide_eq_false_2 by lia.
  destruct j as [|j].
  - injection Hlook as ->. by rewrite Nat.add_0_r.
  - change (formatProgramLogs_rows f maxLogs (S i) logs !! j
            = Some [CellInt (Z.of_nat (i + S j) + 1);
                    CellStr (if bool_decide (80 < String.length logMsg)
                                && negb (showFullData f)
                             then str_take 77 logMsg +:+ "..."
                             else logMsg)]).
    rewrite (IH (S i) j) by (done || lia). do 4 f_equal. lia.
Qed.

(** X25. In the concise view the table of the program logs has the first five
    messages, numbered from 1, each cut to 77 bytes and "..." when it is
    longer than 80 bytes, so that no message shown is longer than 80
    bytes; when there are more than five messages one more row says how
    many are left out. *)
Theorem formatProgramLogs_concise (logs : list string) :
  let rows := formatProgramLogs (NewTransactionFormatter false) logs in
  length rows = length logs `min` 5 + (if decide (5 < length logs) then 1 else 0)
  ∧ (∀ i logMsg, i < 5 → logs !! i = Some logMsg →
       ∃ shown,
         rows !! i = Some [CellInt (Z.of_nat i + 1); CellStr shown]
         ∧ String.length shown ≤ 80
         ∧ (String.length logMsg ≤ 80 → shown = logMsg)
         ∧ (80 < String.length logMsg → shown = str_take 77 logMsg +:+ "..."))
  ∧ (5 < length logs →
     rows !! 5 = Some [CellStr "...";
                       CellStr ("and " +:+ Sprintf_d (length logs - 5) +:+ " more logs")]).
Proof.
  intros rows. unfold rows, formatProgramLogs. simpl.
  pose proof (formatProgramLogs_rows_length (NewTransactionFormatter false) 5 0 logs)
    as Hlen.
  rewrite Nat.sub_0_r in Hlen.
  split_and!.
  - destruct (decide (5 < length logs)) as [Hmore|Hmore].
    + rewrite bool_decide_eq_true_2 by done. rewrite length_app, Hlen. simpl. lia.
    + rewrite bool_decide_eq_false_2 by done. rewrite Hlen. lia.
  - intros i logMsg Hi Hlook.
    pose proof (formatProgramLogs_rows_lookup (NewTransactionFormatter false) 5 0 logs
                  i logMsg Hi Hlook) as Hrow.
    simpl in Hrow. rewrite andb_true_r in Hrow.
    exists (if bool_decide (80 < String.length logMsg)
            then str_take 77 logMsg +:+ "..." else logMsg).
    split.
    { destruct (decide (5 < length logs)) as [Hmore|Hmore].
      - rewrite (bool_decide_eq_true_2 _ Hmore). rewrite lookup_app_l; [exact Hrow|].
        eapply lookup_lt_Some. exact Hrow.
      - rewrite (bool_decide_eq_false_2 _ Hmore). exact Hrow. }
    clear Hrow. case_bool_decide as Hlong.
    + split_and!; [|lia|done].
      rewrite str_length_app, str_take_length by lia. simpl. lia.
    + split_and!; [lia|done|lia].
  - intros Hmore. rewrite bool_decide_eq_true_2 by done.
    assert (Hfive : length (formatProgramLogs_rows (NewTransactionFormatter false) 5 0 logs)
                    = 5) by lia.
    apply list_lookup_middle. exact (eq_sym Hfive).
Qed.

(** X26. With the full data the table has one row for every message, numbered
    from 1, with the message as it is, and no row for messages left out. *)
Theorem formatProgramLogs_full (logs : list string) :
  formatProgramLogs (NewTransactionFormatter true) logs
  = imap (fun i logMsg => [CellInt (Z.of_nat i + 1); CellStr logMsg]) logs.
Proof.
  unfold formatProgramLogs. simpl.
  rewrite bool_decide_eq_false_2 by lia.
  apply list_eq. intros j. rewrite list_lookup_imap.
  destruct (logs !! j) as [logMsg|] eqn:Hlook; simpl.
  - rewrite (formatProgramLogs_rows_lookup _ _ 0 logs j logMsg);
      [|by apply lookup_lt_Some in Hlook|done].
    simpl. by rewrite andb_false_r.
  - apply lookup_ge_None. rewrite formatProgramLogs_rows_length.
    apply lookup_ge_None in Hlook. lia.
Qed.

(** ** The rows of the instructions *)

Section FormatterFacts.

Context `{SolanaGo}.

Lemma formatInstructions_rows_Returned f maxInstr i
    (instructions : list solana_CompiledInstruction) (accountKeys : list solana_PublicKey) :
  (∀ key, key ∈ accountKeys → 8 ≤ String.length (PublicKey_String key)) →
  ∃ rows,
    formatInstructions_rows f maxInstr i instructions accountKeys = Returned rows
    ∧ length rows = length instructions `min` (maxInstr - i)
    ∧ ∀ j instr, i + j < maxInstr → instructions !! j = Some instr →
        ∃ programID accounts,
          rows !! j = Some [CellInt (Z.of_nat (i + j) + 1); CellStr programID;
                            CellStr accounts;
                            CellStr (Sprintf_d (length (Data instr)) +:+ " bytes")]
          ∧ String.length accounts ≤ 20
          ∧ (programID = "Unknown" ↔
             length accountKeys ≤ N.to_nat (ProgramIDIndex instr)).
Proof.
  intros Hkeys. revert i.
  induction instructions as [|instr instructions IH]; intros i.
  - exists []. split_and!; [done|done|]. by intros j instr _ ?.
  - cbn [formatInstructions_rows]. case_bool_decide as Hmax.
    { exists []. split_and!; [done|cbn [length]; lia|]. intros j instr' ? _. lia. }
    destruct (IH (S i)) as (rows & -> & Hlen & Hrows).
    set (accounts := if bool_decide (20 < String.length (Sprintf_v (Accounts instr)))
                     then str_take 17 (Sprintf_v (Accounts instr)) +:+ "..."
                     else Sprintf_v (Accounts instr)).
    assert (Haccounts : String.length accounts ≤ 20).
    { unfold accounts. case_bool_decide; [|lia].
      rewrite str_length_app, str_take_length by lia. simpl. lia. }
    assert (Hprogram : ∃ programID,
      (if bool_decide (N.to_nat (ProgramIDIndex instr) < length accountKeys)
       then
         key ← at_index accountKeys (N.to_nat (ProgramIDIndex instr));
         short ← slice_to (PublicKey_String key) 8;
         Returned (short +:+ "...")
       else Returned "Unknown") = Returned programID
      ∧ (programID = "Unknown" ↔ length accountKeys ≤ N.to_nat (ProgramIDIndex instr))).
    { case_bool_decide as Hidx.
      - destruct (lookup_lt_is_Some_2 accountKeys _ Hidx) as [key Hkey].
        unfold at_index. rewrite Hkey. simpl.
        unfold slice_to. rewrite bool_decide_eq_true_2
          by (apply Hkeys; by eapply list_elem_of_lookup_2).
        simpl. eexists. split; [done|]. split; [|lia].
        intros Heq. apply (f_equal String.length) in Heq.
        rewrite str_length_app, str_take_length in Heq
          by (apply Hkeys; by eapply list_elem_of_lookup_2).
        simpl in Heq. lia.
      - eexists. split; [done|]. split; [lia|done]. }
    destruct Hprogram as (programID & -> & Hunknown).
    unfold mbind, outcome_bind. eexists. split; [reflexivity|].
    split; [cbn [length]; lia|].
    intros [|j] instr' Hj Hlook; simpl in *.
    + injection Hlook as <-. exists programID, accounts.
      by rewrite Nat.add_0_r.
    + destruct (Hrows j instr') as (programID' & accounts' & Hrow & ?); [lia|done|].
      exists programID', accounts'. split; [|done].
      rewrite Hrow. do 4 f_equal. lia.
Qed.

(** X27. [formatInstructions] does not panic when every account key renders
    to at least eight bytes, as base58 keys do.  It shows the first three
    instructions (all of them with the full data), numbered from 1; the
    program is "Unknown" exactly when its index is not the index of an
    account key; the list of accounts never takes more than 20 bytes; and
    one more row tells how many instructions are left out. *)
Theorem formatInstructions_rows_spec f
    (instructions : list solana_CompiledInstruction) (accountKeys : list solana_PublicKey) :
  (∀ key, key ∈ accountKeys → 8 ≤ String.length (PublicKey_String key)) →
  let maxInstr := if showFullData f then length instructions else 3 in
  ∃ rows,
    formatInstructions f instructions accountKeys = Returned rows
    ∧ length rows
      = length instructions `min` maxInstr
        + (if decide (maxInstr < length instructions) then 1 else 0)
    ∧ ∀ i instr, i < maxInstr → instructions !! i = Some instr →
        ∃ programID accounts,
          rows !! i = Some [CellInt (Z.of_nat i + 1); CellStr programID;
                            CellStr accounts;
                            CellStr (Sprintf_d (length (Data instr)) +:+ " bytes")]
          ∧ String.length accounts ≤ 20
          ∧ (programID = "Unknown" ↔
             length accountKeys ≤ N.to_nat (ProgramIDIndex instr)).
Proof.
  intros Hkeys maxInstr. unfold formatInstructions. fold maxInstr.
  destruct (formatInstructions_rows_Returned f maxInstr 0 instructions accountKeys Hkeys)
    as (rows & -> & Hlen & Hrows).
  rewrite Nat.sub_0_r in Hlen. simpl.
  case_bool_decide as Hmore.
  - eexists. split; [done|]. rewrite decide_True by done. split.
    + rewrite length_app, Hlen. simpl. lia.
    + intros i instr Hi Hlook.
      destruct (Hrows i instr) as (programID & accounts & Hrow & ?); [done|done|].
      exists programID, accounts. split; [|done].
      rewrite lookup_app_l; [done|]. apply lookup_lt_Some in Hlook. lia.
  - eexists. split; [done|]. rewrite decide_False by done. split; [lia|].
    intros i instr Hi Hlook. by apply Hrows.
Qed.

End FormatterFacts.

(** ** The further properties at work on the demo instance *)

Lemma buffered_send_all `{SolanaGo} (t : TransactionService) capacity
    (tasks : list (nat * rpc_TransactionSignature)) chan m :
  length chan + length tasks ≤ capacity →
  nsteps (step_buffered t capacity) (length tasks)
    {| running := tasks; resultChan := chan; resultMap := m |}
    {| running := [];
       resultChan := chan ++ ((fun task => fetchTask t (fst task) (snd task)) <$> tasks);
       resultMap := m |}.
Proof.
  revert chan. induction tasks as [|task tasks IH]; intros chan Hroom.
  - simpl. rewrite app_nil_r. constructor.
  - cbn [length] in *. eapply nsteps_l.
    + apply (buffered_send t capacity [] task tasks chan m). lia.
    + rewrite fmap_cons.
      replace (chan ++ fetchTask t (fst task) (snd task)
                 :: ((fun task => fetchTask t (fst task) (snd task)) <$> tasks))
        with ((chan ++ [fetchTask t (fst task) (snd task)])
                ++ ((fun task => fetchTask t (fst task) (snd task)) <$> tasks))
        by (by rewrite <- app_assoc).
      apply (IH (chan ++ [fetchTask t (fst task) (snd task)])).
      rewrite length_app. simpl. lia.
Defined.

Lemma buffered_receive_all `{SolanaGo} (t : TransactionService) capacity chan m :
  nsteps (step_buffered t capacity) (length chan)
    {| running := []; resultChan := chan; resultMap := m |}
    {| running := []; resultChan := []; resultMap := foldl receive m chan |}.
Proof.
  revert m. induction chan as [|result chan IH]; intros m; simpl.
  - constructor.
  - eapply nsteps_l; [apply buffered_receive|apply IH].
Defined.

Lemma buffered_run_all `{SolanaGo} (t : TransactionService)
    (tasks : list (nat * rpc_TransactionSignature)) :
  nsteps (step_buffered t (length tasks)) (2 * length tasks) (launched tasks)
    {| running := []; resultChan := [];
       resultMap := collect ((fun task => fetchTask t (fst task) (snd task)) <$> tasks) |}.
Proof.
  replace (2 * length tasks) with (length tasks + length tasks) by lia.
  eapply nsteps_trans.
  - apply (buffered_send_all t (length tasks) tasks [] ∅). simpl. lia.
  - simpl.
    rewrite <- (length_fmap (fun task => fetchTask t (fst task) (snd task)) tasks) at 2.
    apply buffered_receive_all.
Defined.

Lemma fan_out_send_never_blocks_witness :
  let p := {| running := take 1 demo_tasks;
              resultChan := [@fetchTask demo demo_service 1
                               (@Build_rpc_TransactionSignature demo "S1" 200%N None)];
              resultMap := ∅ |} in
  rtc (@step_buffered demo demo_service (length demo_tasks)) (launched demo_tasks) p
  ∧ running p ≠ []
  ∧ length (resultChan p) < length demo_tasks.
Proof.
  intros p.
  assert (Hrun : rtc (@step_buffered demo demo_service (length demo_tasks))
                     (launched demo_tasks) p).
  { apply rtc_once.
    apply (@buffered_send demo demo_service (length demo_tasks) (take 1 demo_tasks)
             (1, @Build_rpc_TransactionSignature demo "S1" 200%N None) [] [] ∅).
    simpl. lia. }
  assert (Hrunning : running p ≠ []) by done.
  split_and!; [done|done|].
  exact (@fan_out_send_never_blocks demo demo_service demo_tasks p Hrun Hrunning).
Defined.

Lemma fan_out_progress_witness :
  let p := {| running := take 1 demo_tasks;
              resultChan := [@fetchTask demo demo_service 1
                               (@Build_rpc_TransactionSignature demo "S1" 200%N None)];
              resultMap := ∅ |} in
  rtc (@step_buffered demo demo_service (length demo_tasks)) (launched demo_tasks) p
  ∧ ¬ joined p
  ∧ ∃ p', @step_buffered demo demo_service (length demo_tasks) p p'.
Proof.
  intros p.
  assert (Hrun : rtc (@step_buffered demo demo_service (length demo_tasks))
                     (launched demo_tasks) p).
  { apply rtc_once.
    apply (@buffered_send demo demo_service (length demo_tasks) (take 1 demo_tasks)
             (1, @Build_rpc_TransactionSignature demo "S1" 200%N None) [] [] ∅).
    simpl. lia. }
  assert (Hnot : ¬ joined p) by (by intros [? ?]).
  split_and!; [done|done|].
  exact (@fan_out_progress demo demo_service demo_tasks p Hrun Hnot).
Defined.

Lemma fan_out_terminates_witness :
  let p := {| running := []; resultChan := [];
              resultMap := @collect demo
                ((fun task => @fetchTask demo demo_service (fst task) (snd task))
                   <$> demo_tasks) |} in
  nsteps (@step_buffered demo demo_service (length demo_tasks)) 4 (launched demo_tasks) p
  ∧ 4 ≤ 2 * length demo_tasks
  ∧ (joined p ↔ 4 = 2 * length demo_tasks).
Proof.
  intros p.
  assert (Hrun : nsteps (@step_buffered demo demo_service (length demo_tasks)) 4
                        (launched demo_tasks) p)
    by exact (@buffered_run_all demo demo_service demo_tasks).
  split; [done|].
  exact (@fan_out_terminates demo demo_service demo_tasks 4 p Hrun).
Defined.

Lemma fan_out_result_witness :
  let tasks := zip (seq 0 (processCount demo_history 2))
                   (take (processCount demo_history 2) demo_history) in
  let p := {| running := []; resultChan := [];
              resultMap := @collect demo
                ((fun task => @fetchTask demo demo_service (fst task) (snd task))
                   <$> tasks) |} in
  rtc (@step_buffered demo demo_service (processCount demo_history 2)) (launched tasks) p
  ∧ joined p
  ∧ resultMap p !! 0 = record demo_service demo_history 0
  ∧ resultMap p !! 1 = None
  ∧ resultMap p !! 2 = None.
Proof.
  intros tasks p.
  assert (Hrun : rtc (@step_buffered demo demo_service (processCount demo_history 2))
                     (launched tasks) p).
  { eapply rtc_nsteps_2. exact (@buffered_run_all demo demo_service tasks). }
  assert (Hjoined : joined p) by done.
  split_and!; [done|done|..].
  - exact (@fan_out_result demo demo_service demo_history 2%Z p 0 Hrun Hjoined).
  - exact (@fan_out_result demo demo_service demo_history 2%Z p 1 Hrun Hjoined).
  - exact (@fan_out_result demo demo_service demo_history 2%Z p 2 Hrun Hjoined).
Defined.

Lemma FetchAccountTransactions_all_succeed_witness :
  @GetSignaturesForAddress demo (client demo_service) "wallet" = inl demo_history
  ∧ [0] ≡ₚ seq 0 (processCount demo_history 1)
  ∧ (∀ i sig, i < processCount demo_history 1 → demo_history !! i = Some sig →
       ∃ txResult, @GetTransaction demo (client demo_service) (sig_Signature sig)
                   = inl txResult)
  ∧ ∃ batch,
      @FetchAccountTransactions demo demo_service "wallet" 1 42 [0]
      = Returned (Some batch, None)
      ∧ len (Transactions batch) = processCount demo_history 1
      ∧ ∀ i sig, i < processCount demo_history 1 → demo_history !! i = Some sig →
          ∃ txInfo, elems (Transactions batch) !! i = Some txInfo
                    ∧ Signature txInfo = @Signature_String demo (sig_Signature sig)
                    ∧ Slot txInfo = sig_Slot sig
                    ∧ BlockTime txInfo = sig_BlockTime sig.
Proof.
  assert (Hlist : @GetSignaturesForAddress demo (client demo_service) "wallet"
                  = inl demo_history) by reflexivity.
  assert (Horder : [0] ≡ₚ seq 0 (processCount demo_history 1)) by by_computation.
  assert (Hall : ∀ i sig, i < processCount demo_history 1 → demo_history !! i = Some sig →
            ∃ txResult, @GetTransaction demo (client demo_service) (sig_Signature sig)
                        = inl txResult).
  { intros i sig Hi Hlook.
    assert (Hzero : i = 0) by (change (processCount demo_history 1) with 1 in Hi; lia).
    subst i. injection Hlook as <-. by eexists. }
  split_and!; [done|done|done|].
  exact (@FetchAccountTransactions_all_succeed demo demo_service "wallet" 1%Z 42%Z [0]
           demo_history Hlist Horder Hall).
Defined.

Lemma FetchAccountTransactions_all_fail_witness :
  @GetSignaturesForAddress demo (client demo_unreachable_service) "wallet"
  = inl demo_history
  ∧ [1; 0] ≡ₚ seq 0 (processCount demo_history 2)
  ∧ (∀ i sig, i < processCount demo_history 2 → demo_history !! i = Some sig →
       ∃ e, @GetTransaction demo (client demo_unreachable_service) (sig_Signature sig)
            = inr e)
  ∧ @FetchAccountTransactions demo demo_unreachable_service "wallet" 2 42 [1; 0]
    = Returned (Some (@Build_AccountTransactions demo "wallet" (SliceOf []) 42%Z), None).
Proof.
  assert (Hlist : @GetSignaturesForAddress demo (client demo_unreachable_service) "wallet"
                  = inl demo_history) by reflexivity.
  assert (Horder : [1; 0] ≡ₚ seq 0 (processCount demo_history 2)) by by_computation.
  assert (Hall : ∀ i sig, i < processCount demo_history 2 → demo_history !! i = Some sig →
            ∃ e, @GetTransaction demo (client demo_unreachable_service) (sig_Signature sig)
                 = inr e) by (intros; by eexists).
  split_and!; [done|done|done|].
  exact (@FetchAccountTransactions_all_fail demo demo_unreachable_service "wallet" 2%Z 42%Z
           [1; 0] demo_history Hlist Horder Hall).
Defined.

Lemma FetchAccountTransactions_only_leading_witness :
  @GetSignaturesForAddress demo (client demo_service) "wallet" = inl demo_history
  ∧ @GetSignaturesForAddress demo (client demo_other_service) "wallet"
    = inl (take 2 demo_history ++ [@Build_rpc_TransactionSignature demo "T9" 1%N None])
  ∧ [1; 0] ≡ₚ seq 0 (processCount demo_history 2)
  ∧ @FetchAccountTransactions demo demo_service "wallet" 2 42 [1; 0]
    = @FetchAccountTransactions demo demo_other_service "wallet" 2 42 [1; 0].
Proof.
  assert (Hlist1 : @GetSignaturesForAddress demo (client demo_service) "wallet"
                   = inl demo_history) by reflexivity.
  assert (Hlist2 : @GetSignaturesForAddress demo (client demo_other_service) "wallet"
                   = inl (take 2 demo_history
                            ++ [@Build_rpc_TransactionSignature demo "T9" 1%N None]))
    by reflexivity.
  assert (Horder : [1; 0] ≡ₚ seq 0 (processCount demo_history 2)) by by_computation.
  assert (Hget : ∀ sig, sig ∈ take (processCount demo_history 2) demo_history →
            @GetTransaction demo (client demo_service) (sig_Signature sig)
            = @GetTransaction demo (client demo_other_service) (sig_Signature sig)).
  { apply Forall_forall. by repeat constructor. }
  split_and!; [done|done|done|].
  exact (@FetchAccountTransactions_only_leading demo demo_service demo_other_service
           "wallet" 2%Z 42%Z [1; 0] demo_history _ Hlist1 Hlist2 eq_refl eq_refl
           Hget Horder).
Defined.

Lemma FetchAccountTransactions_record_fields_witness :
  @GetSignaturesForAddress demo (client demo_service) "wallet" = inl demo_history
  ∧ [2; 1; 0] ≡ₚ seq 0 (processCount demo_history 3)
  ∧ demo_history !! 2
    = Some (@Build_rpc_TransactionSignature demo "S2" 100%N (Some 1700000100%Z))
  ∧ @GetTransaction demo (client demo_service) "S2"
    = inl (@Build_rpc_GetTransactionResult demo (Some 5000%N) (Some "tx:S2"))
  ∧ ∃ batch txInfo,
      @FetchAccountTransactions demo demo_service "wallet" 3 42 [2; 1; 0]
      = Returned (Some batch, None)
      ∧ elems (Transactions batch) !! 1 = Some txInfo
      ∧ Signature txInfo = "S2"
      ∧ Meta txInfo = Some 5000%N
      ∧ (∀ parsedTx, Transaction txInfo = Some parsedTx ↔
           ∃ envelope, Some "tx:S2" = Some envelope
                       ∧ @Envelope_GetTransaction demo envelope = (Some parsedTx, None)).
Proof.
  assert (Hlist : @GetSignaturesForAddress demo (client demo_service) "wallet"
                  = inl demo_history) by reflexivity.
  assert (Horder : [2; 1; 0] ≡ₚ seq 0 (processCount demo_history 3)) by by_computation.
  assert (Hi : 2 < processCount demo_history 3) by (vm_compute; lia).
  assert (Hsig : demo_history !! 2
                 = Some (@Build_rpc_TransactionSignature demo "S2" 100%N
                           (Some 1700000100%Z))) by reflexivity.
  assert (Hget : @GetTransaction demo (client demo_service) "S2"
                 = inl (@Build_rpc_GetTransactionResult demo (Some 5000%N)
                          (Some "tx:S2"))) by reflexivity.
  split_and!; [done|done|done|done|].
  exact (@FetchAccountTransactions_record_fields demo demo_service "wallet" 3%Z 42%Z
           [2; 1; 0] demo_history 2 _ _ Hlist Horder Hi Hsig Hget).
Defined.


Lemma FetchAccountTransactions_raw_Panicked_iff_witness :
  @Raw_GetSignaturesForAddress demo demo_raw_client "wallet" = inl demo_raw_history
  ∧ [1; 0] ≡ₚ seq 0 (processCount_raw demo_raw_history 2)
  ∧ 1 < processCount_raw demo_raw_history 2
  ∧ demo_raw_history !! 1 = Some None
  ∧ ∃ msg, @FetchAccountTransactions_raw demo demo_raw_client "wallet" 2 42 [1; 0]
           = Panicked msg.
Proof.
  assert (Hlist : @Raw_GetSignaturesForAddress demo demo_raw_client "wallet"
                  = inl demo_raw_history) by reflexivity.
  assert (Horder : [1; 0] ≡ₚ seq 0 (processCount_raw demo_raw_history 2))
    by by_computation.
  assert (Hi : 1 < processCount_raw demo_raw_history 2) by (vm_compute; lia).
  assert (Hnil : demo_raw_history !! 1 = Some None) by reflexivity.
  split_and!; [done|done|done|done|].
  exact (proj2 (@FetchAccountTransactions_raw_Panicked_iff demo demo_raw_client
                  "wallet" 2%Z 42%Z [1; 0] demo_raw_history Hlist Horder)
           (ex_intro _ 1 (conj Hi Hnil))).
Defined.

Lemma FetchAccountTransactions_raw_batch_witness :
  @Raw_GetSignaturesForAddress demo demo_raw_client "wallet" = inl demo_raw_history
  ∧ Forall is_Some (take (processCount_raw demo_raw_history 1) demo_raw_history)
  ∧ [0] ≡ₚ seq 0 (processCount_raw demo_raw_history 1)
  ∧ @FetchAccountTransactions_raw demo demo_raw_client "wallet" 1 42 [0]
    = Returned
        (Some (@Build_AccountTransactions demo "wallet"
                 (SliceOf [ @Build_TransactionInfo demo "S0" 300%N (Some 1700000300%Z)
                              (Some 5000%N) (Some "tx:S0") ])
                 42%Z), None).
Proof.
  assert (Hlist : @Raw_GetSignaturesForAddress demo demo_raw_client "wallet"
                  = inl demo_raw_history) by reflexivity.
  assert (Hsome : Forall is_Some
                    (take (processCount_raw demo_raw_history 1) demo_raw_history))
    by by_computation.
  assert (Horder : [0] ≡ₚ seq 0 (processCount_raw demo_raw_history 1))
    by by_computation.
  split_and!; [done|done|done|].
  exact (@FetchAccountTransactions_raw_batch demo demo_raw_client "wallet" 1%Z 42%Z [0]
           demo_raw_history Hlist Hsome Horder).
Defined.

Lemma main_raw_nil_entry_panics_witness :
  GetRPCURL demo_env_wallet = Returned "https://rpc.example"
  ∧ GetWalletAddress demo_env_wallet = Returned "wallet"
  ∧ [2; 0; 1] ≡ₚ seq 0 (processCount_raw demo_raw_history 0)
  ∧ 1 < processCount_raw demo_raw_history 0
  ∧ demo_raw_history !! 1 = Some None
  ∧ @main_raw demo (fun _ => demo_raw_client) 0 demo_env_wallet 42 [2; 0; 1]
    = Panicked "invalid memory address or nil pointer dereference".
Proof.
  assert (Hurl : GetRPCURL demo_env_wallet = Returned "https://rpc.example")
    by reflexivity.
  assert (Hwallet : GetWalletAddress demo_env_wallet = Returned "wallet") by reflexivity.
  assert (Hlist : @Raw_GetSignaturesForAddress demo demo_raw_client
                    (fst (@GetAccountFromPublicKey demo "wallet")) = inl demo_raw_history)
    by reflexivity.
  assert (Horder : [2; 0; 1] ≡ₚ seq 0 (processCount_raw demo_raw_history 0))
    by by_computation.
  assert (Hi : 1 < processCount_raw demo_raw_history 0) by (vm_compute; lia).
  assert (Hnil : demo_raw_history !! 1 = Some None) by reflexivity.
  split_and!; [done|done|done|done|done|].
  exact (@main_raw_nil_entry_panics demo (fun _ => demo_raw_client) 0%Z demo_env_wallet
           42%Z [2; 0; 1] "https://rpc.example" "wallet" demo_raw_history 1
           Hurl Hwallet Hlist Horder Hi Hnil).
Defined.

Lemma main_invalid_address_uses_zero_key_witness :
  GetRPCURL demo_env = Returned "https://rpc.example"
  ∧ GetWalletAddress demo_env = Returned "offline"
  ∧ @PublicKeyFromBase58 demo_strict "offline" = inr "invalid base58 digit"
  ∧ @main demo_strict (fun _ => demo_strict_client) 20 demo_env 42 [0]
    = Returned
        (Analyze
           (@Build_AccountTransactions demo_strict "11111111111111111111111111111111"
              (SliceOf [ @Build_TransactionInfo demo_strict "Z0" 7%N None
                           (Some 5000%N) (Some "Z0") ])
              42%Z)).
Proof.
  assert (Hurl : GetRPCURL demo_env = Returned "https://rpc.example") by reflexivity.
  assert (Hwallet : GetWalletAddress demo_env = Returned "offline") by reflexivity.
  assert (Hparse : @PublicKeyFromBase58 demo_strict "offline" = inr "invalid base58 digit")
    by reflexivity.
  assert (Hlist : @GetSignaturesForAddress demo_strict demo_strict_client
                    (@PublicKey_zero demo_strict)
                  = inl [@Build_rpc_TransactionSignature demo_strict "Z0" 7%N None])
    by reflexivity.
  assert (Horder : [0] ≡ₚ seq 0 (processCount
                      [@Build_rpc_TransactionSignature demo_strict "Z0" 7%N None] 20))
    by by_computation.
  split_and!; [done|done|done|].
  exact (@main_invalid_address_uses_zero_key demo_strict (fun _ => demo_strict_client)
           20%Z demo_env 42%Z [0] "https://rpc.example" "offline" "invalid base58 digit"
           [@Build_rpc_TransactionSignature demo_strict "Z0" 7%N None]
           _ _ Hurl Hwallet Hparse Hlist Horder eq_refl).
Defined.

Lemma GetWSURL_derived_never_http_witness :
  Getenv demo_env "WS_URL" = ""
  ∧ GetWSURL demo_env = Returned "wss://rpc.example"
  ∧ HasPrefix "wss://rpc.example" "http://" = false
  ∧ HasPrefix "wss://rpc.example" "https://" = false.
Proof.
  assert (Hws : Getenv demo_env "WS_URL" = "") by reflexivity.
  assert (Hget : GetWSURL demo_env = Returned "wss://rpc.example") by reflexivity.
  split_and!; [done|done|..].
  - exact (proj1 (GetWSURL_derived_never_http demo_env "wss://rpc.example" Hws Hget)).
  - exact (proj1 (proj2 (GetWSURL_derived_never_http demo_env "wss://rpc.example"
                           Hws Hget))).
Defined.

Lemma ListenWalletTransactions_polls_RPC_URL_witness :
  Getenv demo_env "WS_URL" = ""
  ∧ GetWSURL demo_env = Returned "wss://rpc.example"
  ∧ HasPrefix (Getenv demo_env "RPC_URL") "wss://" = false
  ∧ HasPrefix (Getenv demo_env "RPC_URL") "ws://" = false
  ∧ ListenWalletTransactions_httpURL "wss://rpc.example" = Getenv demo_env "RPC_URL".
Proof.
  assert (Hws : Getenv demo_env "WS_URL" = "") by reflexivity.
  assert (Hget : GetWSURL demo_env = Returned "wss://rpc.example") by reflexivity.
  assert (Hwss : HasPrefix (Getenv demo_env "RPC_URL") "wss://" = false) by reflexivity.
  assert (Hnows : HasPrefix (Getenv demo_env "RPC_URL") "ws://" = false) by reflexivity.
  split_and!; [done|done|done|done|].
  exact (ListenWalletTransactions_polls_RPC_URL demo_env "wss://rpc.example"
           Hws Hget Hwss Hnows).
Defined.

Lemma ListenWalletTransactions_reports_listed_witness :
  1 ≤ 2 ≤ ticks [Tick; Tick; Done "context canceled"]
  ∧ demo_upstream (ListenWalletTransactions_httpURL "wss://rpc.example") "wallet" 2
    = inl (drop 2 demo_history)
  ∧ (@Build_rpc_TransactionSignature demo "S2" 100%N (Some 1700000100%Z))
    ∈ drop 2 demo_history
  ∧ ("S2" ∈ observed (logged (snd (@ListenWalletTransactions demo demo_upstream
                                     "wss://rpc.example" "wallet"
                                     [Tick; Tick; Done "context canceled"])))
     ∨ ∃ sigs0 s0,
         demo_upstream (ListenWalletTransactions_httpURL "wss://rpc.example") "wallet" 0
         = inl sigs0
         ∧ s0 ∈ sigs0
         ∧ @Signature_String demo (sig_Signature s0) = "S2").
Proof.
  assert (Hk : 1 ≤ 2 ≤ ticks [Tick; Tick; Done "context canceled"]) by (simpl; lia).
  assert (Hpoll : demo_upstream (ListenWalletTransactions_httpURL "wss://rpc.example")
                    "wallet" 2 = inl (drop 2 demo_history)) by reflexivity.
  assert (Hs : (@Build_rpc_TransactionSignature demo "S2" 100%N (Some 1700000100%Z))
               ∈ drop 2 demo_history) by (simpl; left).
  split; [exact Hk|]. split; [exact Hpoll|]. split; [exact Hs|].
  exact (@ListenWalletTransactions_reports_listed demo demo_upstream "wss://rpc.example"
           "wallet" [Tick; Tick; Done "context canceled"] 2 (drop 2 demo_history)
           _ Hk Hpoll Hs).
Defined.

Lemma poll_loop_oldest_first_witness :
  let poll := demo_upstream "https://rpc.example" "wallet" in
  let st := {| seen := {["S4"]}; logged := [] |} in
  poll 4 = inl demo_history
  ∧ NoDup ((fun s => @Signature_String demo (sig_Signature s)) <$> demo_history)
  ∧ logged (snd (@poll_loop demo poll [Tick] 4 st))
    = [TxObserved "S3" 90; TxObserved "S2" 100; TxObserved "S1" 200; TxObserved "S0" 300].
Proof.
  intros poll st.
  assert (Hpoll : poll 4 = inl demo_history) by reflexivity.
  assert (Hnd : NoDup ((fun s => @Signature_String demo (sig_Signature s))
                         <$> demo_history)) by by_computation.
  split_and!; [done|done|].
  rewrite (@poll_loop_oldest_first demo poll [] 4 st demo_history Hpoll Hnd).
  reflexivity.
Defined.

Lemma ListenWalletTransactions_returns_at_Done_witness :
  Forall (fun c => c = Tick) [Tick; Tick]
  ∧ @ListenWalletTransactions demo demo_upstream "wss://rpc.example" "wallet"
      ([Tick; Tick] ++ Done "context canceled" :: [Tick])
    = (Some "context canceled",
       snd (@ListenWalletTransactions demo demo_upstream "wss://rpc.example" "wallet"
              [Tick; Tick]))
  ∧ fst (@ListenWalletTransactions demo demo_upstream "wss://rpc.example" "wallet"
           [Tick; Tick]) = None.
Proof.
  assert (Hpre : Forall (fun c => c = Tick) [Tick; Tick]) by (by repeat constructor).
  split; [done|].
  exact (@ListenWalletTransactions_returns_at_Done demo demo_upstream "wss://rpc.example"
           "wallet" [Tick; Tick] "context canceled" [Tick] Hpre).
Defined.

Lemma loadJupiterList_index_witness :
  demo_net "https://token.jup.ag/all" = Response 200 "200 OK" (inl "all")
  ∧ ∃ out,
      loadJupiterList demo_Unmarshal demo_net "https://token.jup.ag/all" = (Some out, None)
      ∧ out !! "" = None
      ∧ out !! "MintA"
        = Some {| Address := "MintA"; Symbol := "AA2"; Name := "Token A again" |}.
Proof.
  assert (Hnet : demo_net "https://token.jup.ag/all" = Response 200 "200 OK" (inl "all"))
    by reflexivity.
  split; [done|].
  destruct (loadJupiterList_index demo_Unmarshal demo_net "https://token.jup.ag/all"
              "200 OK" "all" _ Hnet eq_refl) as (out & Hload & Hempty & _ & Hlast).
  exists out. split_and!; [done|done|].
  by rewrite (Hlast "MintA").
Defined.

Lemma LoadDefaultRegistry_precedence_witness :
  (∀ m : gmap string TokenInfo, map_to_list m ≡ₚ map_to_list m)
  ∧ ∃ merged,
      fst (LoadDefaultRegistry demo_Unmarshal demo_Unmarshal map_to_list demo_net
             registry_initial) = (Some merged, None)
      ∧ merged !! "MintB" = Some {| Address := "MintB"; Symbol := "BBB"; Name := "Token B" |}
      ∧ merged !! "MintC" = Some {| Address := "MintC"; Symbol := "CCC"; Name := "Token C" |}.
Proof.
  assert (Hrange : ∀ m : gmap string TokenInfo, map_to_list m ≡ₚ map_to_list m)
    by (intros m; reflexivity).
  split; [done|].
  destruct (LoadDefaultRegistry_precedence demo_Unmarshal demo_Unmarshal map_to_list
              Hrange demo_net) as [(_ & _ & _ & Hnone)|(merged & Hload & _ & Hlook)].
  - vm_compute in Hnone. discriminate Hnone.
  - exists merged. split_and!; [done|..].
    + rewrite (Hlook "MintB"). reflexivity.
    + rewrite (Hlook "MintC"). reflexivity.
Defined.

Lemma loadSolanaLabsList_index_witness :
  demo_net tokenListURL = Response 200 "200 OK" (inl "labs")
  ∧ ∃ byMint,
      loadSolanaLabsList demo_Unmarshal demo_net = (Some byMint, None)
      ∧ byMint !! "MintC"
        = Some {| Address := "MintC"; Symbol := "CCC"; Name := "Token C" |}.
Proof.
  assert (Hnet : demo_net tokenListURL = Response 200 "200 OK" (inl "labs"))
    by reflexivity.
  split; [done|].
  destruct (loadSolanaLabsList_index demo_Unmarshal demo_net "200 OK" "labs" _ Hnet eq_refl)
    as (byMint & Hload & Hlast).
  exists byMint. split; [done|]. by rewrite (Hlast "MintC").
Defined.

Lemma formatInstructions_rows_spec_witness :
  (∀ key, key ∈ demo_keys → 8 ≤ String.length (@PublicKey_String demo key))
  ∧ @formatInstructions demo (NewTransactionFormatter false) demo_instructions demo_keys
    = Returned
        [ [CellInt 1; CellStr "Tokenkeg..."; CellStr "[0 2 3]"; CellStr "4 bytes"];
          [CellInt 2; CellStr "Unknown"; CellStr "[10 11 12 13 14 1..."; CellStr "0 bytes"] ]
  ∧ ∃ rows,
      @formatInstructions demo (NewTransactionFormatter false) demo_instructions demo_keys
      = Returned rows
      ∧ length rows = 2.
Proof.
  assert (Hkeys : ∀ key, key ∈ demo_keys → 8 ≤ String.length (@PublicKey_String demo key)).
  { apply Forall_forall. repeat constructor; simpl; lia. }
  split_and!; [done|reflexivity|].
  destruct (@formatInstructions_rows_spec demo (NewTransactionFormatter false)
              demo_instructions demo_keys Hkeys) as (rows & Hrows & Hlen & _).
  by exists rows.
Defined.

Lemma LoadDefaultRegistry_once_witness :
  LoadDefaultRegistry demo_Unmarshal demo_Unmarshal map_to_list demo_net_down
    (snd (LoadDefaultRegistry demo_Unmarshal demo_Unmarshal map_to_list demo_net
            registry_initial))
  = LoadDefaultRegistry demo_Unmarshal demo_Unmarshal map_to_list demo_net registry_initial
  ∧ LoadDefaultRegistry demo_Unmarshal demo_Unmarshal map_to_list demo_net
      (snd (LoadDefaultRegistry demo_Unmarshal demo_Unmarshal map_to_list demo_net_down
              registry_initial))
    = LoadDefaultRegistry demo_Unmarshal demo_Unmarshal map_to_list demo_net_down
        registry_initial
  ∧ fst (LoadDefaultRegistry demo_Unmarshal demo_Unmarshal map_to_list demo_net_down
           registry_initial)
    = (None, Some "no token registry sources available").
Proof.
  split_and!.
  - exact (LoadDefaultRegistry_once demo_Unmarshal demo_Unmarshal map_to_list
             demo_net demo_net_down registry_initial).
  - exact (LoadDefaultRegistry_once demo_Unmarshal demo_Unmarshal map_to_list
             demo_net_down demo_net registry_initial).
  - reflexivity.
Defined.
